(** * s2.Polygon: nested-loop hierarchy, edge-chain index and serializer

    A shallow embedding of [s2/polygon.go] and the properties its
    specification states about it.

    Conventions of the embedding.
    - Go's [int] is a 64-bit two's-complement integer: it is a [Z] and every
      [+], [-], [++] and [--] of the source goes through [GoInt.add] and
      [GoInt.sub], which wrap around.
    - A slice is a [list]; [len] is its length as an [int]; reading index
      [i] is [at_], which panics outside [0, len).  A nil slice that the
      source tells apart from an empty one ([cumulativeEdges]) is an
      [option (list Z)], [None] being nil.
    - A Go function that can panic returns a [result]; loops of the source
      are recursive functions on a fuel that the caller computes from the
      slice it scans, and [OutOfFuel] is the answer of a loop that would not
      have stopped in that many iterations.
    - [*Loop] values are never nil and never mutated by this file, so a
      pointer to a loop is the loop. *)

From Stdlib Require Import ZArith Lia Bool.
From Stdlib Require Import Strings.Byte.
From stdpp Require Import base option numbers list strings.

Local Open Scope Z_scope.

(** ** Go's [int] *)

Module GoInt.

Definition min_int : Z := - 2 ^ 63.
Definition max_int : Z := 2 ^ 63 - 1.

(** Two's-complement reduction of an exact integer to 64 bits. *)
Definition wrap (z : Z) : Z := (z + 2 ^ 63) mod 2 ^ 64 - 2 ^ 63.

Definition add (a b : Z) : Z := wrap (a + b).
Definition sub (a b : Z) : Z := wrap (a - b).

(** The conversion [uint32(x)] of an [int]. *)
Definition uint32 (z : Z) : Z := z mod 2 ^ 32.

Definition fits (z : Z) : Prop := min_int <= z <= max_int.

End GoInt.

(** ** Panics and results *)

Inductive panic : Type :=
| IndexOutOfRange
| DivideByZero
| Explicit (msg : string).

Inductive result (A : Type) : Type :=
| Ok (a : A)
| Panic (why : panic)
| OutOfFuel.

Arguments Ok {A} a.
Arguments Panic {A} why.
Arguments OutOfFuel {A}.

#[global] Instance result_ret : MRet result := @Ok.
#[global] Instance result_bind : MBind result := fun A B f m =>
  match m with
  | Ok a => f a
  | Panic why => Panic why
  | OutOfFuel => OutOfFuel
  end.

(** ** Slices *)

Definition len {A : Type} (s : list A) : Z := Z.of_nat (length s).

(** [s[i]]: a run-time panic when [i] is not an index of [s]. *)
Definition at_ {A : Type} (s : list A) (i : Z) : result A :=
  if i <? 0 then Panic IndexOutOfRange
  else match s !! Z.to_nat i with
       | Some a => Ok a
       | None => Panic IndexOutOfRange
       end.

(** ** The collaborators of the polygon

    [Point], [Rect], [Loop] and the encoder's primitive writers are declared
    in other files of the package.  The polygon uses them through the
    interface below: the two fields of a loop that [polygon.go] reads
    ([vertices] and [depth]), the results of the loop and rectangle methods
    it calls, and the wire layout of the values it writes. *)

Class Collaborators : Type := {
  Point : Type;

  Rect : Type;
  (** [EmptyRect()], [FullRect()] and the zero value [Rect{}]. *)
  EmptyRect : Rect;
  FullRect : Rect;
  zeroRect : Rect;
  (** [r.ContainsPoint(x)]. *)
  Rect_ContainsPoint : Rect -> Point -> bool;
  (** The bytes [r.encode(e)] writes. *)
  Rect_encoding : Rect -> list byte;

  Loop : Type;
  (** The fields [l.vertices] and [l.depth]. *)
  vertices : Loop -> list Point;
  depth : Loop -> Z;
  (** [l.IsFull()], [l.ContainsOrigin()], [l.RectBound()]. *)
  Loop_IsFull : Loop -> bool;
  Loop_ContainsOrigin : Loop -> bool;
  Loop_RectBound : Loop -> Rect;
  (** The bytes [l.encode(e)] writes. *)
  Loop_encoding : Loop -> list byte;
  (** [FullLoop()]. *)
  FullLoop : Loop;

  (** The constant [encodingVersion] and the layout of an [int8], a [bool]
      and a [uint32] on the wire. *)
  encodingVersion : Z;
  int8_bytes : Z -> list byte;
  bool_bytes : bool -> list byte;
  uint32_bytes : Z -> list byte
}.

(** What the specification says of the collaborators and the claims rely
    on: the empty rectangle contains no point, and the full loop reports
    that it is full. *)
Class CollaboratorLaws (C : Collaborators) : Prop := {
  EmptyRect_ContainsPoint : forall x : Point, Rect_ContainsPoint EmptyRect x = false;
  FullLoop_IsFull : Loop_IsFull FullLoop = true
}.

(** The value types of the shape interface ([Edge{v0, v1}],
    [Chain{start, length}], [ChainPosition{chainID, offset}]); the polygon
    builds them positionally. *)
Module Shape.

Record Edge (P : Type) : Type := mkEdge { V0 : P; V1 : P }.
Arguments mkEdge {P} V0 V1.
Arguments V0 {P} e.
Arguments V1 {P} e.

Record Chain : Type := mkChain { Start : Z; Length : Z }.

Record ChainPosition : Type := mkChainPosition { ChainID : Z; Offset : Z }.

End Shape.

Section PolygonModel.

Context {C : Collaborators}.

(** Modelled from the spec: [Loop.Vertices] is not under src/; it is the
    loop's vertex sequence, whose length is the loop's vertex count. *)
Definition Loop_Vertices (l : Loop) : list Point := vertices l.

(** Modelled from the spec: [Loop.Vertex] is not under src/; it is
    "vertex-by-index (cyclic)", the index being reduced modulo the vertex
    count with Go's [%] (a division by zero on a loop without vertices). *)
Definition Loop_Vertex (l : Loop) (i : Z) : result Point :=
  if len (vertices l) =? 0 then Panic DivideByZero
  else at_ (vertices l) (Z.rem i (len (vertices l))).

(** The struct [Polygon].  The field [index ShapeIndex] is left out: no
    function of the file reads or writes it. *)
Record Polygon : Type := mkPolygon {
  loops : list Loop;
  hasHoles : bool;
  numVertices : Z;
  numEdges : Z;
  bound : Rect;
  subregionBound : Rect;
  cumulativeEdges : option (list Z)
}.

(** The zero value of [Polygon], "treated as the empty polygon". *)
Definition zeroPolygon : Polygon :=
  {| loops := [];
     hasHoles := false;
     numVertices := 0;
     numEdges := 0;
     bound := zeroRect;
     subregionBound := zeroRect;
     cumulativeEdges := None |}.

(** *** Construction *)

Definition maxLinearSearchLoops : Z := 12.

(** One iteration of [for _, l := range loops] in [PolygonFromLoops], on
    the pair ([p.cumulativeEdges], [p.numEdges]). *)
Definition addLoopEdges (st : option (list Z) * Z) (l : Loop)
  : option (list Z) * Z :=
  let cum := match st.1 with
             | Some c => Some (c ++ [st.2])
             | None => None
             end in
  (cum, GoInt.add st.2 (len (Loop_Vertices l))).

(** Lines 106-116: the table is made when there are more than
    [maxLinearSearchLoops] loops, then every loop is counted. *)
Definition initEdges (ls : list Loop) (p : Polygon) : Polygon :=
  let cum0 := if maxLinearSearchLoops <? len ls
              then Some [] else cumulativeEdges p in
  let st := fold_left addLoopEdges ls (cum0, numEdges p) in
  {| loops := loops p;
     hasHoles := hasHoles p;
     numVertices := numVertices p;
     numEdges := st.2;
     bound := bound p;
     subregionBound := subregionBound p;
     cumulativeEdges := st.1 |}.

Definition PolygonFromLoops (ls : list Loop) : result Polygon :=
  if 1 <? len ls
  then Panic (Explicit "PolygonFromLoops for multiple loops is not yet implemented")
  else
    l0 ← at_ ls 0;
    l0' ← at_ ls 0;
    let p := {| loops := ls;
                hasHoles := false;
                numVertices := len (Loop_Vertices l0);
                numEdges := 0;
                bound := Loop_RectBound l0';
                subregionBound := EmptyRect;
                cumulativeEdges := None |} in
    Ok (initEdges ls p).

Definition FullPolygon : Polygon :=
  {| loops := [FullLoop];
     hasHoles := false;
     numVertices := len (Loop_Vertices FullLoop);
     numEdges := 0;
     bound := FullRect;
     subregionBound := FullRect;
     cumulativeEdges := None |}.

(** *** The nested-loop hierarchy *)

Definition IsEmpty (p : Polygon) : bool := len (loops p) =? 0.

(** [&&] does not evaluate [p.loops[0]] unless there is exactly one
    loop, so [IsFull] cannot panic. *)
Definition IsFull (p : Polygon) : bool :=
  (len (loops p) =? 1) &&
  match loops p with
  | l :: _ => Loop_IsFull l
  | [] => false
  end.

Definition NumLoops (p : Polygon) : Z := len (loops p).

Definition Loops (p : Polygon) : list Loop := loops p.

Definition Loop_ (p : Polygon) (k : Z) : result Loop := at_ (loops p) k.

(** The loop of [Parent]:
    [for k--; k >= 0 && p.loops[k].depth <= depth; k-- {}],
    entered after the initial [k--]. *)
Fixpoint Parent_scan (fuel : nat) (p : Polygon) (d k : Z) : result Z :=
  match fuel with
  | O => OutOfFuel
  | S fuel' =>
      if 0 <=? k then
        l ← at_ (loops p) k;
        if depth l <=? d
        then Parent_scan fuel' p d (GoInt.sub k 1)
        else Ok k
      else Ok k
  end.

(** [k] goes down by one at each iteration and the loop stops below 0:
    it runs at most [k] times after the first test. *)
Definition Parent (p : Polygon) (k : Z) : result (Z * bool) :=
  l ← at_ (loops p) k;
  let d := depth l in
  if d =? 0 then Ok (-1, false)
  else
    k' ← Parent_scan (S (Z.to_nat k)) p d (GoInt.sub k 1);
    Ok (k', true).

(** The loop of [LastDescendant]:
    [for k++; k < len(p.loops) && p.loops[k].depth > depth; k++ {}]. *)
Fixpoint LastDescendant_scan (fuel : nat) (p : Polygon) (d k : Z) : result Z :=
  match fuel with
  | O => OutOfFuel
  | S fuel' =>
      if k <? len (loops p) then
        l ← at_ (loops p) k;
        if d <? depth l
        then LastDescendant_scan fuel' p d (GoInt.add k 1)
        else Ok k
      else Ok k
  end.

(** [k] goes up by one at each iteration and the loop stops at
    [len(p.loops)]: it runs at most [len(p.loops)] times after the first
    test. *)
Definition LastDescendant (p : Polygon) (k : Z) : result Z :=
  if k <? 0 then Ok (GoInt.sub (len (loops p)) 1)
  else
    l ← at_ (loops p) k;
    let d := depth l in
    k' ← LastDescendant_scan (S (length (loops p))) p d (GoInt.add k 1);
    Ok (GoInt.sub k' 1).

Definition loopIsHole (p : Polygon) (k : Z) : result bool :=
  l ← at_ (loops p) k;
  Ok (negb (Z.land (depth l) 1 =? 0)).

Definition loopSign (p : Polygon) (k : Z) : result Z :=
  h ← loopIsHole p k;
  Ok (if h : bool then -1 else 1).

Definition RectBound (p : Polygon) : Rect := bound p.

(** *** The shape interface and the edge-chain index *)

Definition NumEdges (p : Polygon) : Z := numEdges p.

(** [len(p.cumulativeEdges)] is 0 for the nil slice. *)
Definition table (p : Polygon) : list Z := default [] (cumulativeEdges p).

(** The indexed branch of [Edge]:
    [for i = range p.cumulativeEdges { if i+1 >= len(..) || e < ..[i+1]
    { e -= ..[i]; break } }].  [n] counts the indices the range has
    still to produce and [k] is the next of them; when the range is
    exhausted [i] and [e] keep their last values. *)
Fixpoint Edge_indexed (n : nat) (cum : list Z) (k i e : Z) : result (Z * Z) :=
  match n with
  | O => Ok (i, e)
  | S n' =>
      let i := k in
      if len cum <=? GoInt.add i 1 then
        c ← at_ cum i; Ok (i, GoInt.sub e c)
      else
        c1 ← at_ cum (GoInt.add i 1);
        if e <? c1 then
          c ← at_ cum i; Ok (i, GoInt.sub e c)
        else Edge_indexed n' cum (k + 1) i e
  end.

(** The linear branch of [Edge]:
    [for i = 0; e >= len(p.Loop(i).vertices); i++
    { e -= len(p.Loop(i).vertices) }]. *)
Fixpoint Edge_linear (fuel : nat) (p : Polygon) (i e : Z) : result (Z * Z) :=
  match fuel with
  | O => OutOfFuel
  | S fuel' =>
      l ← Loop_ p i;
      if len (vertices l) <=? e then
        l' ← Loop_ p i;
        Edge_linear fuel' p (GoInt.add i 1) (GoInt.sub e (len (vertices l')))
      else Ok (i, e)
  end.

(** [i] starts at 0, goes up by one at each iteration and [p.Loop(i)]
    panics at [len(p.loops)]: the condition of the linear loop is
    evaluated at most [len(p.loops) + 1] times. *)
Definition Edge (p : Polygon) (e : Z) : result (Shape.Edge Point) :=
  '(i, e) ← (if 0 <? len (table p)
             then Edge_indexed (length (table p)) (table p) 0 0 e
             else Edge_linear (S (length (loops p))) p 0 e);
  l ← Loop_ p i;
  v0 ← Loop_Vertex l e;
  l' ← Loop_ p i;
  v1 ← Loop_Vertex l' (GoInt.add e 1);
  Ok (Shape.mkEdge v0 v1).

(** [a != b] on booleans. *)
Definition bool_ne (a b : bool) : bool := negb (eqb a b).

(** [containsOrigin = containsOrigin != l.ContainsOrigin()] over the
    loops, from [false]. *)
Definition ContainsOrigin (p : Polygon) : bool :=
  fold_left (fun acc l => bool_ne acc (Loop_ContainsOrigin l))
            (loops p) false.

Definition NumChains (p : Polygon) : Z :=
  if IsFull p then 0 else NumLoops p.

Definition ChainEdge (p : Polygon) (i j : Z) : result (Shape.Edge Point) :=
  l ← Loop_ p i;
  v0 ← Loop_Vertex l j;
  l' ← Loop_ p i;
  v1 ← Loop_Vertex l' (GoInt.add j 1);
  Ok (Shape.mkEdge v0 v1).

(** The two branches of [ChainPosition], written in the source a second
    time with [edgeID] for [e]. *)
Fixpoint ChainPosition_indexed (n : nat) (cum : list Z) (k i edgeID : Z)
  : result (Z * Z) :=
  match n with
  | O => Ok (i, edgeID)
  | S n' =>
      let i := k in
      if len cum <=? GoInt.add i 1 then
        c ← at_ cum i; Ok (i, GoInt.sub edgeID c)
      else
        c1 ← at_ cum (GoInt.add i 1);
        if edgeID <? c1 then
          c ← at_ cum i; Ok (i, GoInt.sub edgeID c)
        else ChainPosition_indexed n' cum (k + 1) i edgeID
  end.

Fixpoint ChainPosition_linear (fuel : nat) (p : Polygon) (i edgeID : Z)
  : result (Z * Z) :=
  match fuel with
  | O => OutOfFuel
  | S fuel' =>
      l ← Loop_ p i;
      if len (vertices l) <=? edgeID then
        l' ← Loop_ p i;
        ChainPosition_linear fuel' p (GoInt.add i 1)
                             (GoInt.sub edgeID (len (vertices l')))
      else Ok (i, edgeID)
  end.

Definition ChainPosition (p : Polygon) (edgeID : Z) : result Shape.ChainPosition :=
  '(i, edgeID) ← (if 0 <? len (table p)
                  then ChainPosition_indexed (length (table p)) (table p) 0 0 edgeID
                  else ChainPosition_linear (S (length (loops p))) p 0 edgeID);
  Ok (Shape.mkChainPosition i edgeID).

(** The loop of [Chain]:
    [for j := 0; j < chainID; j++ { e += len(p.Loop(j).vertices) }]. *)
Fixpoint Chain_sum (fuel : nat) (p : Polygon) (chainID j e : Z) : result Z :=
  match fuel with
  | O => OutOfFuel
  | S fuel' =>
      if j <? chainID then
        l ← Loop_ p j;
        Chain_sum fuel' p chainID (GoInt.add j 1) (GoInt.add e (len (vertices l)))
      else Ok e
  end.

(** [Chain] reads the table whenever it is not nil (and not, as [Edge]
    does, whenever it is not empty).  In the loop [j] starts at 0, goes up
    by one at each iteration and [p.Loop(j)] panics at [len(p.loops)]: the
    condition is evaluated at most [len(p.loops) + 1] times. *)
Definition Chain (p : Polygon) (chainID : Z) : result Shape.Chain :=
  match cumulativeEdges p with
  | Some cum =>
      s ← at_ cum chainID;
      l ← Loop_ p chainID;
      Ok (Shape.mkChain s (len (vertices l)))
  | None =>
      e ← Chain_sum (S (length (loops p))) p chainID 0 0;
      l ← Loop_ p chainID;
      Ok (Shape.mkChain e (len (vertices l)))
  end.

(** *** The serializer *)

(** Modelled from the spec: the type [encoder] and its writers are not
    under src/.  An encoder is the stream its writer has received so far
    and the error it holds; a write appends the bytes of its field to the
    stream, "with no padding between fields beyond each field's own
    natural width".  The stream takes every write. *)
Record encoder : Type := mkEncoder {
  w : list byte;
  err : option string
}.

Definition emit (bs : list byte) (e : encoder) : encoder :=
  {| w := w e ++ bs; err := err e |}.

Definition writeInt8 (x : Z) (e : encoder) : encoder := emit (int8_bytes x) e.
Definition writeBool (x : bool) (e : encoder) : encoder := emit (bool_bytes x) e.
Definition writeUint32 (x : Z) (e : encoder) : encoder := emit (uint32_bytes x) e.
Definition Loop_encode (l : Loop) (e : encoder) : encoder := emit (Loop_encoding l) e.
Definition Rect_encode (r : Rect) (e : encoder) : encoder := emit (Rect_encoding r) e.

Definition encodeLossless (p : Polygon) (e : encoder) : encoder :=
  let e := writeInt8 encodingVersion e in
  let e := writeBool true e in
  let e := writeBool (hasHoles p) e in
  let e := writeUint32 (GoInt.uint32 (len (loops p))) e in
  let e := fold_left (fun e l => Loop_encode l e) (loops p) e in
  Rect_encode (bound p) e.

Definition encode (p : Polygon) (e : encoder) : encoder :=
  if numVertices p =? 0
  then {| w := w e; err := Some "compressed encoding not yet implemented"%string |}
  else encodeLossless p e.

(** [Encode] starts an encoder on the writer, whose stream so far is
    [out], and returns the error of the encoder; the stream of the writer
    afterwards is returned with it. *)
Definition Encode (p : Polygon) (out : list byte) : list byte * option string :=
  let e := encode p {| w := out; err := None |} in
  (w e, err e).

(** *** The vocabulary of the specification *)

(** The edge count of a loop and the total over a loop sequence, as exact
    integers. *)
Definition edgeCount (l : Loop) : Z := len (vertices l).

Definition edgeTotal (ls : list Loop) : Z :=
  foldr (fun l acc => edgeCount l + acc) 0 ls.

(** "element i = sum of edge counts of loops [0, i)", one entry per
    loop. *)
Fixpoint spec_cumulativeEdges (acc : Z) (ls : list Loop) : list Z :=
  match ls with
  | [] => []
  | l :: ls' => acc :: spec_cumulativeEdges (acc + edgeCount l) ls'
  end.

(** Indexed mode in the words of the specification: [i] is the greatest
    index with [cum[i] <= e] and the local index is [e - cum[i]]. *)
Definition spec_indexed (cum : list Z) (e : Z) (i j : Z) : Prop :=
  exists c, 0 <= i /\ cum !! Z.to_nat i = Some c /\ c <= e /\
    (forall (i' : nat) c', cum !! i' = Some c' -> c' <= e -> Z.of_nat i' <= i) /\
    j = e - c.

(** Linear mode in the words of the specification: scan the loops in
    order, subtracting each loop's edge count from [e] until [e] falls
    within the current loop's range.  [None] when the loops run out. *)
Fixpoint spec_linear (ls : list Loop) (i e : Z) : option (Z * Z) :=
  match ls with
  | [] => None
  | l :: ls' =>
      if e <? edgeCount l then Some (i, e)
      else spec_linear ls' (i + 1) (e - edgeCount l)
  end.

(** The polygon's totals are those the construction loop computes, with
    the table left nil ([false]) or made ([true]). *)
Definition edgesCounted (populated : bool) (p : Polygon) : Prop :=
  (cumulativeEdges p, numEdges p) =
  fold_left addLoopEdges (loops p)
            (if populated then Some [] else None, 0).

(** "Depth values are monotonically consistent with preorder nesting":
    the first loop is a shell of depth 0 and each later loop is at most
    one level below the loop before it. *)
Fixpoint preorder_from (prev : Z) (ds : list Z) : bool :=
  match ds with
  | [] => true
  | d :: ds' => (0 <=? d) && (d <=? prev + 1) && preorder_from d ds'
  end.

Definition validDepths (p : Polygon) : bool :=
  preorder_from (-1) (map depth (loops p)).

(** The depth of loop [k], 0 outside the loop sequence. *)
Definition depthAt (p : Polygon) (k : Z) : Z :=
  if k <? 0 then 0 else default 0 (depth <$> loops p !! Z.to_nat k).

End PolygonModel.

(** ** A concrete instance of the collaborators

    Points on a line: a point is an integer, a rectangle is empty, full or a
    closed interval, and a loop records its vertices, its depth and whether
    it contains the origin.  Integers are written little-endian. *)

Module Line.

Inductive rect : Type :=
| Empty
| Full
| Interval (lo hi : Z).

Definition contains (r : rect) (x : Z) : bool :=
  match r with
  | Empty => false
  | Full => true
  | Interval lo hi => (lo <=? x) && (x <=? hi)
  end.

Record loop : Type := mkLoop {
  lvertices : list Z;
  ldepth : Z;
  originInside : bool
}.

Definition hull (xs : list Z) : rect :=
  match xs with
  | [] => Empty
  | x :: xs' => Interval (foldr Z.min x xs') (foldr Z.max x xs')
  end.

Definition byte_of (z : Z) : byte :=
  default x00 (Byte.of_N (Z.to_N (z mod 256))).

Definition le_bytes (n : nat) (z : Z) : list byte :=
  map (fun k => byte_of (Z.shiftr z (8 * Z.of_nat k))) (seq 0 n).

Definition rect_bytes (r : rect) : list byte :=
  match r with
  | Empty => [x00]
  | Full => [x01]
  | Interval lo hi => x02 :: le_bytes 8 lo ++ le_bytes 8 hi
  end.

Definition loop_bytes (l : loop) : list byte :=
  le_bytes 4 (len (lvertices l)) ++ flat_map (le_bytes 8) (lvertices l).

#[global] Instance collaborators : Collaborators := {|
  Point := Z;
  Rect := rect;
  EmptyRect := Empty;
  FullRect := Full;
  zeroRect := Interval 0 0;
  Rect_ContainsPoint := contains;
  Rect_encoding := rect_bytes;
  Loop := loop;
  vertices := lvertices;
  depth := ldepth;
  Loop_IsFull := fun l => (len (lvertices l) =? 1) && originInside l;
  Loop_ContainsOrigin := originInside;
  Loop_RectBound := fun l => hull (lvertices l);
  Loop_encoding := loop_bytes;
  FullLoop := {| lvertices := [0]; ldepth := 0; originInside := true |};
  encodingVersion := 1;
  int8_bytes := le_bytes 1;
  bool_bytes := fun b => [if b then x01 else x00];
  uint32_bytes := le_bytes 4
|}.

#[global] Instance laws : CollaboratorLaws collaborators.
Proof. split; reflexivity. Qed.

(** A triangle, and a shell with one hole. *)
Definition triangle : loop :=
  {| lvertices := [10; 20; 30]; ldepth := 0; originInside := false |}.

Definition shell : loop :=
  {| lvertices := [0; 40; 80; 120]; ldepth := 0; originInside := true |}.

Definition hole : loop :=
  {| lvertices := [50; 60; 70]; ldepth := 1; originInside := false |}.

Definition nested : Polygon :=
  {| loops := [shell; hole];
     hasHoles := true;
     numVertices := 7;
     numEdges := 7;
     bound := Interval 0 120;
     subregionBound := Interval 0 120;
     cumulativeEdges := None |}.

Definition nested_indexed : Polygon :=
  {| loops := [shell; hole];
     hasHoles := true;
     numVertices := 7;
     numEdges := 7;
     bound := Interval 0 120;
     subregionBound := Interval 0 120;
     cumulativeEdges := Some [0; 4] |}.

(** Thirteen triangles, counted by the construction loop: one loop more
    than [maxLinearSearchLoops], so the table is made. *)
Definition thirteen : Polygon :=
  initEdges (replicate 13 triangle)
            {| loops := replicate 13 triangle;
               hasHoles := false;
               numVertices := 39;
               numEdges := 0;
               bound := Interval 10 30;
               subregionBound := Interval 10 30;
               cumulativeEdges := None |}.

(** The same loops with the table left nil. *)
Definition thirteen_linear : Polygon :=
  {| loops := loops thirteen;
     hasHoles := hasHoles thirteen;
     numVertices := numVertices thirteen;
     numEdges := numEdges thirteen;
     bound := bound thirteen;
     subregionBound := subregionBound thirteen;
     cumulativeEdges := None |}.

(** The polygon of thirteen triangles as [PolygonFromLoops] would hold it
    before its construction loop runs. *)
Definition thirteen_uncounted : Polygon :=
  {| loops := replicate 13 triangle;
     hasHoles := false;
     numVertices := 39;
     numEdges := 0;
     bound := Interval 10 30;
     subregionBound := Interval 10 30;
     cumulativeEdges := None |}.

(** The hole listed before its shell. *)
Definition nested_swapped : Polygon :=
  {| loops := [hole; shell];
     hasHoles := true;
     numVertices := 7;
     numEdges := 7;
     bound := Interval 0 120;
     subregionBound := Interval 0 120;
     cumulativeEdges := None |}.

(** The polygon of the one triangle, as [PolygonFromLoops] builds it. *)
Definition single : Polygon :=
  {| loops := [triangle];
     hasHoles := false;
     numVertices := 3;
     numEdges := 3;
     bound := Interval 10 30;
     subregionBound := Empty;
     cumulativeEdges := None |}.

End Line.

(** ** Properties *)

Section PolygonProperties.

Context {C : Collaborators}.

(** *** Arithmetic and slices *)

Lemma wrap_fits (z : Z) : GoInt.fits z -> GoInt.wrap z = z.
Proof.
  unfold GoInt.fits, GoInt.wrap, GoInt.min_int, GoInt.max_int. intros H.
  rewrite Z.mod_small; lia.
Qed.

Lemma add_fits (a b : Z) : GoInt.fits (a + b) -> GoInt.add a b = a + b.
Proof. apply wrap_fits. Qed.

Lemma sub_fits (a b : Z) : GoInt.fits (a - b) -> GoInt.sub a b = a - b.
Proof. apply wrap_fits. Qed.

Lemma bind_Ok {A B : Type} (f : A -> result B) (a : A) : (Ok a ≫= f) = f a.
Proof. reflexivity. Qed.

Lemma len_nonneg {A : Type} (s : list A) : 0 <= len s.
Proof. unfold len. lia. Qed.

Lemma len_app {A : Type} (s t : list A) : len (s ++ t) = len s + len t.
Proof. unfold len. rewrite length_app. lia. Qed.

Lemma len_cons {A : Type} (a : A) (s : list A) : len (a :: s) = 1 + len s.
Proof. unfold len. simpl. lia. Qed.

Lemma at_lookup {A : Type} (s : list A) (n : nat) (a : A) :
  s !! n = Some a -> at_ s (Z.of_nat n) = Ok a.
Proof.
  intros H. unfold at_.
  destruct (Z.ltb_spec (Z.of_nat n) 0); [lia|].
  by rewrite Nat2Z.id, H.
Qed.

Lemma at_middle {A : Type} (pre suf : list A) (a : A) :
  at_ (pre ++ a :: suf) (len pre) = Ok a.
Proof. apply at_lookup. by rewrite list_lookup_middle. Qed.

Lemma at_in_range {A : Type} (s : list A) (i : Z) :
  0 <= i < len s -> exists a, s !! Z.to_nat i = Some a /\ at_ s i = Ok a.
Proof.
  unfold len. intros H.
  destruct (lookup_lt_is_Some_2 s (Z.to_nat i)) as [a Ha]; [lia|].
  exists a. split; [done|].
  rewrite <- (Z2Nat.id i) by lia. by apply at_lookup.
Qed.

Lemma at_out_of_range {A : Type} (s : list A) (i : Z) :
  i < 0 \/ len s <= i -> at_ s i = Panic IndexOutOfRange.
Proof.
  unfold len, at_. intros H.
  destruct (Z.ltb_spec i 0); [done|].
  rewrite lookup_ge_None_2; [done | lia].
Qed.

Lemma depthAt_lookup (p : Polygon) (k : Z) (l : Loop) :
  0 <= k -> loops p !! Z.to_nat k = Some l -> depthAt p k = depth l.
Proof.
  intros Hk Hl. unfold depthAt.
  destruct (Z.ltb_spec k 0); [lia|]. by rewrite Hl.
Qed.

(** *** LastDescendant *)

(** The forward scan stops at [len(p.loops)] or at the first loop from
    [k] on that is not deeper than [d]. *)
Lemma LastDescendant_scan_spec (p : Polygon) (d : Z) (fuel : nat) (k : Z) :
  len (loops p) <= GoInt.max_int ->
  0 <= k <= len (loops p) ->
  len (loops p) - k < Z.of_nat fuel ->
  exists m,
    LastDescendant_scan fuel p d k = Ok m /\
    k <= m <= len (loops p) /\
    (forall j, k <= j < m -> d < depthAt p j) /\
    (m < len (loops p) -> depthAt p m <= d).
Proof.
  intros Hmax. revert k.
  induction fuel as [|fuel IH]; intros k Hk Hfuel; [lia|].
  simpl. destruct (Z.ltb_spec k (len (loops p))) as [Hlt|Hge].
  - destruct (at_in_range (loops p) k) as (l & Hl & ->); [lia|]. simpl.
    destruct (Z.ltb_spec d (depth l)) as [Hd|Hd].
    + rewrite add_fits by (unfold GoInt.fits, GoInt.min_int, GoInt.max_int in *; lia).
      destruct (IH (k + 1)) as (m & Hm & Hr & Hin & Hout); [lia|lia|].
      exists m. repeat split; try done; try lia.
      intros j Hj. destruct (decide (j = k)) as [->|Hne].
      * by rewrite (depthAt_lookup p k l) by (done || lia).
      * apply Hin. lia.
    + exists k. repeat split; try lia.
      intros _. by rewrite (depthAt_lookup p k l) by (done || lia).
  - exists k. repeat split; try lia.
Qed.

(** C4. [LastDescendant(k)] is the last loop index when [k] is negative;
    for a loop index [k] it is [m - 1], where [m] is the first index after
    [k] whose depth is at most [depth(k)], or the last loop index when
    there is none: every loop after [k] up to the result is strictly
    deeper than loop [k], the loop after the result (if any) is not, and
    the result is [k] itself for a leaf.  This holds for every depth
    assignment, the valid preorder ones included. *)
Theorem LastDescendant_spec (p : Polygon) (k : Z) :
  len (loops p) <= GoInt.max_int ->
  (k < 0 -> LastDescendant p k = Ok (NumLoops p - 1)) /\
  (0 <= k < NumLoops p ->
   exists r,
     LastDescendant p k = Ok r /\
     k <= r < NumLoops p /\
     (forall j, k < j <= r -> depthAt p k < depthAt p j) /\
     (r + 1 < NumLoops p -> depthAt p (r + 1) <= depthAt p k) /\
     ((k + 1 < NumLoops p -> depthAt p (k + 1) <= depthAt p k) -> r = k)).
Proof.
  intros Hmax. unfold NumLoops, LastDescendant.
  pose proof (len_nonneg (loops p)) as Hlen.
  assert (Hfits : forall z, -1 <= z <= len (loops p) -> GoInt.fits z)
    by (unfold GoInt.fits, GoInt.min_int, GoInt.max_int in *; lia).
  split.
  - intros Hk. destruct (Z.ltb_spec k 0); [|lia].
    by rewrite sub_fits by (apply Hfits; lia).
  - intros Hk. destruct (Z.ltb_spec k 0); [lia|].
    destruct (at_in_range (loops p) k) as (l & Hl & ->); [lia|].
    rewrite bind_Ok, add_fits by (apply Hfits; lia).
    destruct (LastDescendant_scan_spec p (depth l) (S (length (loops p))) (k + 1))
      as (m & -> & Hr & Hin & Hout); [done|lia|unfold len; lia|].
    rewrite bind_Ok, sub_fits by (apply Hfits; lia).
    rewrite (depthAt_lookup p k l) by (done || lia).
    exists (m - 1). repeat split; try lia.
    + intros j Hj. apply Hin. lia.
    + intros Hlt. replace (m - 1 + 1) with m by lia. apply Hout. lia.
    + intros Hleaf. destruct (decide (m = k + 1)) as [->|Hne]; [lia|].
      assert (Hdeep : depth l < depthAt p (k + 1)) by (apply Hin; lia).
      lia.
Qed.

(** *** Parent *)

(** The backward scan stops below index 0 or at the first loop from [k]
    down that is strictly deeper than [d]. *)
Lemma Parent_scan_spec (p : Polygon) (d : Z) (fuel : nat) (k : Z) :
  len (loops p) <= GoInt.max_int ->
  -1 <= k < len (loops p) ->
  k + 1 < Z.of_nat fuel ->
  exists r,
    Parent_scan fuel p d k = Ok r /\
    -1 <= r <= k /\
    (forall j, r < j <= k -> depthAt p j <= d) /\
    (0 <= r -> d < depthAt p r).
Proof.
  intros Hmax. revert k.
  induction fuel as [|fuel IH]; intros k Hk Hfuel; [lia|].
  simpl. destruct (Z.leb_spec 0 k) as [Hpos|Hneg].
  - destruct (at_in_range (loops p) k) as (l & Hl & ->); [lia|].
    rewrite bind_Ok.
    destruct (Z.leb_spec (depth l) d) as [Hd|Hd].
    + rewrite sub_fits by (unfold GoInt.fits, GoInt.min_int, GoInt.max_int in *; lia).
      destruct (IH (k - 1)) as (r & Hr & Hrange & Hin & Hout); [lia|lia|].
      exists r. repeat split; try done; try lia.
      intros j Hj. destruct (decide (j = k)) as [->|Hne].
      * by rewrite (depthAt_lookup p k l).
      * apply Hin. lia.
    + exists k. repeat split; try lia.
      intros _. by rewrite (depthAt_lookup p k l).
  - exists k. repeat split; try lia.
Qed.

(** A top-level loop has no parent: [Parent] reports not-found. *)
Lemma Parent_top_level (p : Polygon) (k : Z) :
  0 <= k < NumLoops p -> depthAt p k = 0 -> Parent p k = Ok (-1, false).
Proof.
  unfold NumLoops, Parent. intros Hk Hd.
  destruct (at_in_range (loops p) k) as (l & Hl & ->); [lia|].
  rewrite bind_Ok. rewrite (depthAt_lookup p k l) in Hd by (done || lia).
  by rewrite Hd.
Qed.

(** What [Parent] computes for a loop that is not at depth 0: the
    nearest earlier loop that is strictly deeper than loop [k], or -1
    when there is none, always with [ok = true]. *)
Lemma Parent_nearest_deeper (p : Polygon) (k : Z) :
  len (loops p) <= GoInt.max_int ->
  0 <= k < NumLoops p -> depthAt p k <> 0 ->
  exists r,
    Parent p k = Ok (r, true) /\
    -1 <= r < k /\
    (forall j, r < j < k -> depthAt p j <= depthAt p k) /\
    (0 <= r -> depthAt p k < depthAt p r).
Proof.
  unfold NumLoops, Parent. intros Hmax Hk Hd.
  destruct (at_in_range (loops p) k) as (l & Hl & ->); [lia|].
  rewrite bind_Ok. rewrite (depthAt_lookup p k l) in * by (done || lia).
  destruct (Z.eqb_spec (depth l) 0) as [|_]; [done|].
  rewrite sub_fits by (unfold GoInt.fits, GoInt.min_int, GoInt.max_int in *; lia).
  destruct (Parent_scan_spec p (depth l) (S (Z.to_nat k)) (k - 1))
    as (r & -> & Hrange & Hin & Hout); [done|lia|lia|].
  rewrite bind_Ok. exists r. repeat split; try done; try lia.
  intros j Hj. apply Hin. lia.
Qed.

(** Hence [Parent] never returns the structural parent of a nested loop:
    whatever index it returns is not a loop one level above loop [k]. *)
Lemma Parent_never_one_level_up (p : Polygon) (k r : Z) (ok : bool) :
  len (loops p) <= GoInt.max_int ->
  0 <= k < NumLoops p -> 0 < depthAt p k ->
  Parent p k = Ok (r, ok) ->
  ~ (0 <= r /\ depthAt p r = depthAt p k - 1).
Proof.
  intros Hmax Hk Hd Hp.
  destruct (Parent_nearest_deeper p k) as (r' & Hr' & _ & _ & Hout);
    [done|done|lia|].
  rewrite Hr' in Hp. injection Hp as Hr1 Hr2. subst r' ok.
  intros [Hr Heq]. specialize (Hout Hr). lia.
Qed.

(** *** Edge counts and the cumulative table *)

Lemma edgeCount_nonneg (l : Loop) : 0 <= edgeCount l.
Proof. apply len_nonneg. Qed.

Lemma edgeTotal_nonneg (ls : list Loop) : 0 <= edgeTotal ls.
Proof.
  induction ls as [|l ls IH]; simpl; [lia|].
  pose proof (edgeCount_nonneg l). lia.
Qed.

Lemma edgeTotal_app (a b : list Loop) :
  edgeTotal (a ++ b) = edgeTotal a + edgeTotal b.
Proof. induction a as [|l a IH]; simpl; lia. Qed.

Lemma edgeTotal_snoc (a : list Loop) (l : Loop) :
  edgeTotal (a ++ [l]) = edgeTotal a + edgeCount l.
Proof. rewrite edgeTotal_app. simpl. lia. Qed.

Lemma edgeTotal_take_le (ls : list Loop) (m m' : nat) :
  (m <= m')%nat -> edgeTotal (take m ls) <= edgeTotal (take m' ls).
Proof.
  revert m m'. induction ls as [|l ls IH]; intros m m' Hm.
  - by rewrite !take_nil.
  - destruct m as [|m]; simpl.
    + apply edgeTotal_nonneg.
    + destruct m' as [|m']; [lia|]. simpl.
      specialize (IH m m'). lia.
Qed.

Lemma spec_cumulativeEdges_length (acc : Z) (ls : list Loop) :
  length (spec_cumulativeEdges acc ls) = length ls.
Proof. revert acc. induction ls as [|l ls IH]; intros acc; simpl; [done|]. by rewrite IH. Qed.

Lemma spec_cumulativeEdges_app (acc : Z) (a b : list Loop) :
  spec_cumulativeEdges acc (a ++ b) =
  spec_cumulativeEdges acc a ++ spec_cumulativeEdges (acc + edgeTotal a) b.
Proof.
  revert acc. induction a as [|l a IH]; intros acc; simpl.
  - by rewrite Z.add_0_r.
  - rewrite IH. do 3 f_equal. lia.
Qed.

(** Entry [m] of the table is the number of edges of the loops before
    loop [m]. *)
Lemma spec_cumulativeEdges_lookup (acc : Z) (ls : list Loop) (m : nat) (c : Z) :
  spec_cumulativeEdges acc ls !! m = Some c ->
  c = acc + edgeTotal (take m ls).
Proof.
  revert acc m. induction ls as [|l ls IH]; intros acc m H; [done|].
  destruct m as [|m]; simpl in *.
  - injection H as <-. lia.
  - apply IH in H. lia.
Qed.

Lemma spec_cumulativeEdges_middle (pre suf : list Loop) (l : Loop) :
  spec_cumulativeEdges 0 (pre ++ l :: suf) !! length pre = Some (edgeTotal pre).
Proof.
  rewrite spec_cumulativeEdges_app. simpl.
  rewrite <- (spec_cumulativeEdges_length 0 pre) at 1.
  by rewrite list_lookup_middle.
Qed.

(** The construction loop computes the exact total and, when the table
    has been made, the table of the specification. *)
Lemma fold_addLoopEdges (ls : list Loop) (c : option (list Z)) (acc : Z) :
  0 <= acc -> acc + edgeTotal ls <= GoInt.max_int ->
  fold_left addLoopEdges ls (c, acc) =
  (match c with
   | Some t => Some (t ++ spec_cumulativeEdges acc ls)
   | None => None
   end, acc + edgeTotal ls).
Proof.
  revert c acc. induction ls as [|l ls IH]; intros c acc Hacc Hmax; simpl.
  - rewrite Z.add_0_r. destruct c; [by rewrite app_nil_r | done].
  - pose proof (edgeCount_nonneg l) as Hl.
    pose proof (edgeTotal_nonneg ls) as Hls.
    unfold addLoopEdges at 2. simpl in *. unfold Loop_Vertices. fold (edgeCount l).
    rewrite add_fits by (unfold GoInt.fits, GoInt.min_int, GoInt.max_int in *; lia).
    rewrite IH by lia. f_equal; [|lia].
    destruct c; [|done]. by rewrite <- app_assoc.
Qed.

Lemma edgesCounted_fields (populated : bool) (p : Polygon) :
  edgeTotal (loops p) <= GoInt.max_int ->
  edgesCounted populated p ->
  numEdges p = edgeTotal (loops p) /\
  cumulativeEdges p =
    if populated then Some (spec_cumulativeEdges 0 (loops p)) else None.
Proof.
  unfold edgesCounted. intros Hmax H.
  rewrite fold_addLoopEdges in H by lia.
  injection H as Hc Hn. rewrite Hc, Hn. by destruct populated.
Qed.

(** The construction loop of [PolygonFromLoops] leaves the polygon with its
    edges counted, and with the table exactly when there are more than
    [maxLinearSearchLoops] loops. *)
Lemma initEdges_edgesCounted (ls : list Loop) (p : Polygon) :
  loops p = ls -> numEdges p = 0 -> cumulativeEdges p = None ->
  edgesCounted (maxLinearSearchLoops <? len ls) (initEdges ls p).
Proof.
  intros <- Hn Hc. unfold edgesCounted, initEdges. simpl. rewrite Hn, Hc.
  destruct (maxLinearSearchLoops <? len (loops p));
    by destruct (fold_left addLoopEdges (loops p) _).
Qed.

Lemma PolygonFromLoops_edgesCounted (ls : list Loop) (p : Polygon) :
  PolygonFromLoops ls = Ok p -> edgesCounted false p.
Proof.
  unfold PolygonFromLoops. destruct ls as [|l [|l2 ls]].
  - discriminate.
  - simpl. intros [= <-]. reflexivity.
  - destruct (Z.ltb_spec 1 (len (l :: l2 :: ls))) as [_|Hle]; [discriminate|].
    rewrite !len_cons in Hle. pose proof (len_nonneg ls). lia.
Qed.

(** *** The two resolution modes *)

(** What linear mode, in the words of the specification, returns: the
    loop [m] places further on, and the edge index less the edges of the
    loops skipped, which falls within that loop. *)
Lemma spec_linear_inv (suf : list Loop) (i0 e i j : Z) :
  spec_linear suf i0 e = Some (i, j) -> 0 <= e ->
  exists (m : nat) (l : Loop),
    i = i0 + Z.of_nat m /\ suf !! m = Some l /\
    j = e - edgeTotal (take m suf) /\ 0 <= j < edgeCount l.
Proof.
  revert i0 e. induction suf as [|l suf IH]; intros i0 e H He; [done|].
  simpl in H. destruct (Z.ltb_spec e (edgeCount l)) as [Hlt|Hge].
  - injection H as <- <-. exists 0%nat, l. simpl. repeat split; lia.
  - apply IH in H as (m & l' & -> & Hl' & -> & Hj); [|lia].
    exists (S m), l'. simpl. repeat split; try done; lia.
Qed.

Lemma spec_linear_in_range (suf : list Loop) (i0 e : Z) :
  0 <= e < edgeTotal suf -> exists i j, spec_linear suf i0 e = Some (i, j).
Proof.
  revert i0 e. induction suf as [|l suf IH]; intros i0 e He; simpl in *; [lia|].
  destruct (Z.ltb_spec e (edgeCount l)); [by eauto|].
  apply IH. lia.
Qed.

(** The linear loop of the code, started at loop [len pre] with the
    loops [suf] still ahead, returns what the specification's scan
    returns. *)
Lemma ChainPosition_linear_spec (p : Polygon) (suf pre : list Loop)
      (fuel : nat) (e : Z) :
  loops p = pre ++ suf ->
  len (loops p) <= GoInt.max_int ->
  edgeTotal suf <= GoInt.max_int ->
  (length suf < fuel)%nat ->
  0 <= e < edgeTotal suf ->
  exists i j,
    spec_linear suf (len pre) e = Some (i, j) /\
    ChainPosition_linear fuel p (len pre) e = Ok (i, j).
Proof.
  intros Hp Hmax. revert pre fuel e Hp.
  induction suf as [|l suf IH]; intros pre fuel e Hp Htot Hfuel He;
    simpl in *; [lia|].
  destruct fuel as [|fuel]; [lia|]. simpl.
  pose proof (edgeCount_nonneg l) as Hl.
  pose proof (edgeTotal_nonneg suf) as Hsuf.
  pose proof (len_nonneg pre) as Hpre.
  unfold Loop_. rewrite Hp, at_middle, !bind_Ok. fold (edgeCount l).
  destruct (Z.leb_spec (edgeCount l) e) as [Hge|Hlt];
    destruct (Z.ltb_spec e (edgeCount l)) as [Hlt'|Hge']; try lia.
  - fold (edgeCount l).
    assert (Hlen : len (pre ++ l :: suf) = len pre + 1 + len suf)
      by (rewrite len_app, len_cons; lia).
    pose proof (len_nonneg suf) as Hlsuf.
    rewrite add_fits, sub_fits
      by (unfold GoInt.fits, GoInt.min_int, GoInt.max_int in *;
          rewrite ?Hp, ?Hlen in *; lia).
    replace (len pre + 1) with (len (pre ++ [l])) by (rewrite len_app; done).
    apply IH; try lia.
    by rewrite Hp, <- app_assoc.
  - by exists (len pre), e.
Qed.

(** The indexed loop of the code, run over the table of the loops
    [pre ++ suf] from index [len pre] on, returns what the
    specification's linear scan returns on the loops [suf]. *)
Lemma ChainPosition_indexed_spec (suf pre : list Loop) (icur e : Z) :
  len (pre ++ suf) <= GoInt.max_int ->
  edgeTotal (pre ++ suf) <= GoInt.max_int ->
  edgeTotal pre <= e < edgeTotal (pre ++ suf) ->
  exists i j,
    spec_linear suf (len pre) (e - edgeTotal pre) = Some (i, j) /\
    ChainPosition_indexed (length suf) (spec_cumulativeEdges 0 (pre ++ suf))
                          (len pre) icur e = Ok (i, j).
Proof.
  revert pre icur.
  induction suf as [|l suf IH]; intros pre icur Hmax Htot He.
  - rewrite app_nil_r in He. lia.
  - pose proof (edgeCount_nonneg l) as Hl.
    pose proof (edgeTotal_nonneg pre) as Hpre.
    pose proof (len_nonneg pre) as Hlpre.
    pose proof (len_nonneg suf) as Hlsuf.
    assert (Hlen : len (spec_cumulativeEdges 0 (pre ++ l :: suf))
                   = len pre + 1 + len suf).
    { unfold len. rewrite spec_cumulativeEdges_length, length_app. simpl. lia. }
    assert (Hat : at_ (spec_cumulativeEdges 0 (pre ++ l :: suf)) (len pre)
                  = Ok (edgeTotal pre))
      by (apply at_lookup, spec_cumulativeEdges_middle).
    rewrite len_app, len_cons in Hmax.
    rewrite edgeTotal_app in Htot, He. simpl in Htot, He.
    pose proof (edgeTotal_nonneg suf) as Hsuf.
    simpl. fold (edgeCount l).
    rewrite add_fits
      by (unfold GoInt.fits, GoInt.min_int, GoInt.max_int in *; lia).
    rewrite Hlen, Hat, !bind_Ok.
    rewrite sub_fits
      by (unfold GoInt.fits, GoInt.min_int, GoInt.max_int in *; lia).
    destruct (Z.leb_spec (len pre + 1 + len suf) (len pre + 1)) as [Hlast|Hmore].
    + assert (suf = []) as ->.
      { destruct suf as [|l2 suf]; [done|]. exfalso.
        rewrite len_cons in Hlast. pose proof (len_nonneg suf). lia. }
      simpl in He.
      destruct (Z.ltb_spec (e - edgeTotal pre) (edgeCount l)); [|lia].
      by exists (len pre), (e - edgeTotal pre).
    + assert (Hnext : at_ (spec_cumulativeEdges 0 (pre ++ l :: suf))
                          (len pre + 1) = Ok (edgeTotal pre + edgeCount l)).
      { destruct suf as [|l2 suf]; [unfold len in Hmore; simpl in Hmore; lia|].
        replace (len pre + 1) with (Z.of_nat (length (pre ++ [l])))
          by (unfold len; rewrite length_app; simpl; lia).
        apply at_lookup.
        replace (pre ++ l :: l2 :: suf) with ((pre ++ [l]) ++ l2 :: suf)
          by (by rewrite <- app_assoc).
        by rewrite spec_cumulativeEdges_middle, edgeTotal_snoc. }
      rewrite Hnext, bind_Ok.
      destruct (Z.ltb_spec e (edgeTotal pre + edgeCount l)) as [Hin|Hout];
        destruct (Z.ltb_spec (e - edgeTotal pre) (edgeCount l)); try lia.
      * by exists (len pre), (e - edgeTotal pre).
      * specialize (IH (pre ++ [l]) (len pre)).
        replace ((pre ++ [l]) ++ suf) with (pre ++ l :: suf) in IH
          by (by rewrite <- app_assoc).
        replace (len (pre ++ [l])) with (len pre + 1) in IH
          by (by rewrite len_app).
        rewrite edgeTotal_snoc in IH.
        replace (e - edgeTotal pre - edgeCount l)
          with (e - (edgeTotal pre + edgeCount l)) by lia.
        apply IH.
        -- rewrite len_app, len_cons. lia.
        -- rewrite edgeTotal_app. simpl. lia.
        -- rewrite edgeTotal_app. simpl. lia.
Qed.

(** The source writes the two scans twice; the copies in [Edge] are, up
    to the name of the edge index, those in [ChainPosition]. *)
Lemma Edge_indexed_eq (n : nat) (cum : list Z) (k i e : Z) :
  Edge_indexed n cum k i e = ChainPosition_indexed n cum k i e.
Proof. reflexivity. Qed.

Lemma Edge_linear_eq (fuel : nat) (p : Polygon) (i e : Z) :
  Edge_linear fuel p i e = ChainPosition_linear fuel p i e.
Proof. reflexivity. Qed.

(** The result of the linear scan is the specification's indexed
    resolution over the table: the greatest entry not above [e]. *)
Lemma spec_linear_greatest (ls : list Loop) (e i j : Z) :
  0 <= e -> spec_linear ls 0 e = Some (i, j) ->
  spec_indexed (spec_cumulativeEdges 0 ls) e i j.
Proof.
  intros He H.
  apply spec_linear_inv in H as (m & l & -> & Hl & -> & Hj); [|done].
  assert (Hm : (m < length ls)%nat) by (by eapply lookup_lt_Some).
  destruct (lookup_lt_is_Some_2 (spec_cumulativeEdges 0 ls) m) as [c Hc];
    [by rewrite spec_cumulativeEdges_length|].
  pose proof (spec_cumulativeEdges_lookup _ _ _ _ Hc) as ->.
  exists (0 + edgeTotal (take m ls)).
  rewrite Z.add_0_l, Nat2Z.id. repeat split; try done; try lia.
  intros i' c' Hc' Hle.
  apply spec_cumulativeEdges_lookup in Hc' as ->.
  destruct (decide (i' <= m)%nat) as [|Hgt]; [lia|].
  pose proof (edgeTotal_take_le ls (S m) i' ltac:(lia)) as Hmono.
  rewrite (take_S_r ls m l Hl), edgeTotal_snoc in Hmono. lia.
Qed.

Lemma ChainPosition_with_table (p : Polygon) (e : Z) :
  0 < len (table p) ->
  ChainPosition p e =
    (ChainPosition_indexed (length (table p)) (table p) 0 0 e
       ≫= fun ie => Ok (Shape.mkChainPosition ie.1 ie.2)).
Proof.
  intros H. unfold ChainPosition.
  destruct (Z.ltb_spec 0 (len (table p))); [|lia].
  by destruct (ChainPosition_indexed _ _ _ _ _) as [[i j]| |].
Qed.

Lemma ChainPosition_without_table (p : Polygon) (e : Z) :
  table p = [] ->
  ChainPosition p e =
    (ChainPosition_linear (S (length (loops p))) p 0 e
       ≫= fun ie => Ok (Shape.mkChainPosition ie.1 ie.2)).
Proof.
  intros H. unfold ChainPosition. rewrite H.
  change (0 <? len []) with false. cbv iota.
  by destruct (ChainPosition_linear _ _ _ _) as [[i j]| |].
Qed.

(** On a polygon whose edges have been counted, with or without the
    table, [ChainPosition] resolves an edge index in range to a loop of
    the polygon and an edge of that loop, as the specification's linear
    scan does. *)
Lemma ChainPosition_in_range (populated : bool) (p : Polygon) (e : Z) :
  edgesCounted populated p ->
  len (loops p) <= GoInt.max_int ->
  edgeTotal (loops p) <= GoInt.max_int ->
  0 <= e < NumEdges p ->
  exists i j l,
    ChainPosition p e = Ok (Shape.mkChainPosition i j) /\
    spec_linear (loops p) 0 e = Some (i, j) /\
    0 <= i /\ loops p !! Z.to_nat i = Some l /\
    0 <= j < edgeCount l /\ j <= e.
Proof.
  unfold NumEdges. intros Hcount Hmax Htot He.
  destruct (edgesCounted_fields populated p Htot Hcount) as [Hn Hc].
  rewrite Hn in He.
  assert (Hscan : exists i j,
             spec_linear (loops p) 0 e = Some (i, j) /\
             ChainPosition p e = Ok (Shape.mkChainPosition i j)).
  { destruct populated.
    - destruct (loops p) as [|l0 ls] eqn:Hls; [simpl in He; lia|].
      rewrite <- Hls in *.
      rewrite ChainPosition_with_table; unfold table; rewrite Hc; simpl default.
      2:{ unfold len. rewrite spec_cumulativeEdges_length, Hls. simpl. lia. }
      rewrite spec_cumulativeEdges_length.
      destruct (ChainPosition_indexed_spec (loops p) [] 0 e)
        as (i & j & Hs & Hi); [done|done|simpl; lia|].
      simpl in Hs. rewrite Z.sub_0_r in Hs.
      change (len []) with 0 in Hs, Hi. simpl app in Hi.
      exists i, j. by rewrite Hi.
    - rewrite ChainPosition_without_table by (unfold table; by rewrite Hc).
      destruct (ChainPosition_linear_spec p (loops p) [] (S (length (loops p))) e)
        as (i & j & Hs & Hi); [done|done|done|lia|done|].
      change (len []) with 0 in Hs, Hi.
      exists i, j. by rewrite Hi. }
  destruct Hscan as (i & j & Hs & Hi).
  destruct (spec_linear_inv _ _ _ _ _ Hs) as (m & l & -> & Hl & -> & Hj); [lia|].
  pose proof (edgeTotal_nonneg (take m (loops p))).
  exists (0 + Z.of_nat m), (e - edgeTotal (take m (loops p))), l.
  rewrite Z.add_0_l, Nat2Z.id in *. repeat split; try done; lia.
Qed.

(** C1. On the same loops, with the total edge count in [numEdges], the
    indexed scan over the cumulative table (the prefix sums of the loops'
    edge counts) and the linear scan over the loops resolve every edge
    index in range to the same (loop, local edge) pair; that pair is the
    one the specification describes for each mode, and [ChainPosition]
    and [Edge] return the same results with the table as without it. *)
Theorem resolution_modes_agree (p q : Polygon) (e : Z) :
  loops q = loops p ->
  edgesCounted true p ->
  edgesCounted false q ->
  len (loops p) <= GoInt.max_int ->
  edgeTotal (loops p) <= GoInt.max_int ->
  0 <= e < NumEdges p ->
  NumEdges p = edgeTotal (loops p) /\
  NumEdges q = NumEdges p /\
  cumulativeEdges p = Some (spec_cumulativeEdges 0 (loops p)) /\
  cumulativeEdges q = None /\
  exists i j,
    spec_indexed (table p) e i j /\
    spec_linear (loops q) 0 e = Some (i, j) /\
    ChainPosition_indexed (length (table p)) (table p) 0 0 e = Ok (i, j) /\
    ChainPosition_linear (S (length (loops q))) q 0 e = Ok (i, j) /\
    ChainPosition p e = Ok (Shape.mkChainPosition i j) /\
    ChainPosition q e = Ok (Shape.mkChainPosition i j) /\
    Edge p e = Edge q e.
Proof.
  intros Hloops Hp Hq Hmax Htot He.
  assert (Htotq : edgeTotal (loops q) <= GoInt.max_int) by (by rewrite Hloops).
  destruct (edgesCounted_fields true p Htot Hp) as [Hnp Hcp].
  destruct (edgesCounted_fields false q Htotq Hq) as [Hnq Hcq].
  unfold NumEdges in *. rewrite Hloops in Hnq.
  repeat split; try done; try congruence.
  assert (Heq : 0 <= e < numEdges q) by lia.
  destruct (ChainPosition_in_range true p e Hp Hmax Htot He)
    as (i & j & l & Hi & Hs & _).
  destruct (ChainPosition_in_range false q e Hq) as (i' & j' & l' & Hi' & Hs' & _);
    [by rewrite Hloops|done|done|].
  rewrite Hloops, Hs in Hs'. injection Hs' as <- <-.
  assert (Hne : (0 <? len (table p)) = true).
  { unfold table. rewrite Hcp. simpl. apply Z.ltb_lt. unfold len.
    rewrite spec_cumulativeEdges_length.
    destruct (loops p); [simpl in *; lia | simpl; lia]. }
  assert (Hnil : (0 <? len (table q)) = false)
    by (unfold table; by rewrite Hcq).
  assert (Hip : ChainPosition_indexed (length (table p)) (table p) 0 0 e = Ok (i, j)).
  { revert Hi. unfold ChainPosition. rewrite Hne.
    destruct (ChainPosition_indexed _ _ _ _ _) as [[i0 j0]| |]; simpl; congruence. }
  assert (Hiq : ChainPosition_linear (S (length (loops q))) q 0 e = Ok (i, j)).
  { revert Hi'. unfold ChainPosition. rewrite Hnil.
    destruct (ChainPosition_linear _ _ _ _) as [[i0 j0]| |]; simpl; congruence. }
  exists i, j. repeat split; try done.
  - unfold table at 1. rewrite Hcp. simpl. apply spec_linear_greatest; [lia|done].
  - by rewrite Hloops.
  - unfold Edge. rewrite Hne, Hnil, Edge_indexed_eq, Edge_linear_eq, Hip, Hiq.
    unfold Loop_. by rewrite Hloops.
Qed.

(** *** Edge, ChainPosition and ChainEdge *)

(** Cyclic vertex access succeeds at every index from 0 on in a loop that
    has a vertex. *)
Lemma Loop_Vertex_in_range (l : Loop) (j : Z) :
  0 <= j -> 0 < edgeCount l -> exists v, Loop_Vertex l j = Ok v.
Proof.
  unfold Loop_Vertex, edgeCount. intros Hj Hl.
  destruct (Z.eqb_spec (len (vertices l)) 0); [lia|].
  destruct (at_in_range (vertices l) (Z.rem j (len (vertices l)))) as (v & _ & Hv).
  - apply Z.rem_bound_pos; lia.
  - by exists v.
Qed.

(** [Edge] resolves the index as [ChainPosition] does and then reads the
    two vertices as [ChainEdge] does, on every polygon and every index. *)
Lemma Edge_via_ChainPosition (p : Polygon) (e : Z) :
  Edge p e =
    (ChainPosition p e ≫= fun cp => ChainEdge p (Shape.ChainID cp) (Shape.Offset cp)).
Proof.
  unfold Edge, ChainPosition, ChainEdge.
  rewrite Edge_indexed_eq, Edge_linear_eq.
  by destruct (if 0 <? len (table p) then _ else _) as [[i j]| |].
Qed.

(** C3. [Edge(e)] is [ChainEdge(i, j)] for [(i, j) = ChainPosition(e)]:
    on every polygon and every index the two computations coincide, and
    on a polygon whose edges have been counted, for an edge index in
    range, both return the same pair of vertices. *)
Theorem Edge_ChainPosition_ChainEdge (p : Polygon) (e : Z) :
  Edge p e =
    (ChainPosition p e ≫= fun cp => ChainEdge p (Shape.ChainID cp) (Shape.Offset cp)) /\
  (forall populated : bool,
      edgesCounted populated p ->
      len (loops p) <= GoInt.max_int ->
      edgeTotal (loops p) <= GoInt.max_int ->
      0 <= e < NumEdges p ->
      exists i j v0 v1,
        ChainPosition p e = Ok (Shape.mkChainPosition i j) /\
        Edge p e = Ok (Shape.mkEdge v0 v1) /\
        ChainEdge p i j = Ok (Shape.mkEdge v0 v1)).
Proof.
  pose proof (Edge_via_ChainPosition p e) as Hgen.
  split; [done|].
  intros populated Hcount Hmax Htot He.
  destruct (ChainPosition_in_range populated p e Hcount Hmax Htot He)
    as (i & j & l & Hi & _ & Hi0 & Hl & Hj & Hje).
  rewrite Hgen, Hi, bind_Ok. simpl.
  assert (Hloop : Loop_ p i = Ok l).
  { unfold Loop_. rewrite <- (Z2Nat.id i) by done. by apply at_lookup. }
  destruct (Loop_Vertex_in_range l j) as [v0 Hv0]; [lia|lia|].
  destruct (Loop_Vertex_in_range l (j + 1)) as [v1 Hv1]; [lia|lia|].
  destruct (edgesCounted_fields populated p Htot Hcount) as [Hn _].
  unfold NumEdges in He.
  exists i, j, v0, v1. split; [done|].
  unfold ChainEdge. rewrite Hloop, !bind_Ok, Hv0, bind_Ok.
  rewrite add_fits
    by (unfold GoInt.fits, GoInt.min_int, GoInt.max_int in *; lia).
  by rewrite !bind_Ok, Hv1.
Qed.

(** *** The fuel of the loops is enough

    On every input, in range or not, the functions return or panic within
    the fuel their callers give them. *)

Lemma at_not_OutOfFuel {A : Type} (s : list A) (i : Z) : at_ s i <> OutOfFuel.
Proof.
  unfold at_. destruct (i <? 0); [done|]. by destruct (s !! Z.to_nat i).
Qed.

Lemma ChainPosition_indexed_not_OutOfFuel (n : nat) (cum : list Z) (k i e : Z) :
  ChainPosition_indexed n cum k i e <> OutOfFuel.
Proof.
  revert k i. induction n as [|n IH]; intros k i; simpl; [done|].
  destruct (len cum <=? GoInt.add k 1).
  - pose proof (at_not_OutOfFuel cum k). by destruct (at_ cum k).
  - pose proof (at_not_OutOfFuel cum (GoInt.add k 1)).
    destruct (at_ cum (GoInt.add k 1)) as [c1| |]; simpl; try done.
    destruct (e <? c1); [|apply IH].
    pose proof (at_not_OutOfFuel cum k). by destruct (at_ cum k).
Qed.

Lemma ChainPosition_linear_not_OutOfFuel (p : Polygon) (suf pre : list Loop)
      (fuel : nat) (e : Z) :
  loops p = pre ++ suf ->
  len (loops p) <= GoInt.max_int ->
  (length suf < fuel)%nat ->
  ChainPosition_linear fuel p (len pre) e <> OutOfFuel.
Proof.
  intros Hp Hmax. revert pre fuel e Hp.
  induction suf as [|l suf IH]; intros pre fuel e Hp Hfuel;
    (destruct fuel as [|fuel]; [simpl in Hfuel; lia|]); simpl; unfold Loop_.
  - rewrite at_out_of_range; [done|].
    right. rewrite Hp, app_nil_r. lia.
  - rewrite Hp, at_middle, !bind_Ok.
    destruct (len (vertices l) <=? e); [|done].
    pose proof (len_nonneg pre). pose proof (len_nonneg suf).
    rewrite Hp, len_app, len_cons in Hmax.
    rewrite add_fits
      by (unfold GoInt.fits, GoInt.min_int, GoInt.max_int in *; lia).
    replace (len pre + 1) with (len (pre ++ [l])) by (by rewrite len_app).
    apply IH; [by rewrite Hp, <- app_assoc | simpl in Hfuel; lia].
Qed.

Lemma bind_not_OutOfFuel {A B : Type} (m : result A) (f : A -> result B) :
  m <> OutOfFuel -> (forall a, f a <> OutOfFuel) -> (m ≫= f) <> OutOfFuel.
Proof. intros Hm Hf. destruct m as [a| |]; [apply Hf | done | done]. Qed.

Lemma ChainEdge_not_OutOfFuel (p : Polygon) (i j : Z) :
  ChainEdge p i j <> OutOfFuel.
Proof.
  assert (Hv : forall l k, Loop_Vertex l k <> OutOfFuel).
  { intros l k. unfold Loop_Vertex.
    destruct (len (vertices l) =? 0); [done | apply at_not_OutOfFuel]. }
  unfold ChainEdge, Loop_.
  repeat (apply bind_not_OutOfFuel;
          [first [apply at_not_OutOfFuel | apply Hv] | intros ?]).
  done.
Qed.

Lemma fuel_suffices (p : Polygon) :
  len (loops p) <= GoInt.max_int ->
  (forall k, Parent p k <> OutOfFuel) /\
  (forall k, LastDescendant p k <> OutOfFuel) /\
  (forall e, ChainPosition p e <> OutOfFuel) /\
  (forall e, Edge p e <> OutOfFuel).
Proof.
  intros Hmax.
  pose proof (len_nonneg (loops p)) as Hlen.
  assert (Hcp : forall e, ChainPosition p e <> OutOfFuel).
  { intros e. unfold ChainPosition.
    apply bind_not_OutOfFuel; [|by intros [i j]].
    destruct (0 <? len (table p)).
    - apply ChainPosition_indexed_not_OutOfFuel.
    - apply (ChainPosition_linear_not_OutOfFuel p (loops p) []); [done|done|lia]. }
  repeat split; try done.
  - intros k.
    destruct (decide (0 <= k < len (loops p))) as [Hk|Hk].
    + destruct (decide (depthAt p k = 0)) as [Hd|Hd].
      * by rewrite Parent_top_level.
      * destruct (Parent_nearest_deeper p k) as (r & -> & _); done.
    + unfold Parent. rewrite at_out_of_range by lia. done.
  - intros k. unfold LastDescendant.
    destruct (Z.ltb_spec k 0); [done|].
    destruct (decide (k < len (loops p))) as [Hk|Hk].
    + destruct (at_in_range (loops p) k) as (l & _ & ->); [lia|].
      rewrite bind_Ok,
        add_fits by (unfold GoInt.fits, GoInt.min_int, GoInt.max_int in *; lia).
      destruct (LastDescendant_scan_spec p (depth l) (S (length (loops p))) (k + 1))
        as (m & -> & _); [done | lia | unfold len; lia | done].
    + rewrite at_out_of_range by lia. done.
  - intros e. rewrite Edge_via_ChainPosition.
    apply bind_not_OutOfFuel; [apply Hcp | intros cp; apply ChainEdge_not_OutOfFuel].
Qed.

(** *** Construction and bounds *)

(** A polygon built from one loop has that loop's rectangle as [bound]
    and the empty rectangle as [subregionBound], which contains no
    point. *)
Lemma PolygonFromLoops_single `{!CollaboratorLaws C} (l : Loop) :
  exists p,
    PolygonFromLoops [l] = Ok p /\
    loops p = [l] /\
    bound p = Loop_RectBound l /\
    subregionBound p = EmptyRect /\
    (forall x, Rect_ContainsPoint (subregionBound p) x = false).
Proof.
  eexists. split; [reflexivity|]. simpl.
  repeat split. apply EmptyRect_ContainsPoint.
Qed.

(** C10. On an empty slice [PolygonFromLoops] reads [loops[0]] and
    panics with an index out of range; every polygon it does return has
    exactly the one loop it was given, so it is never the empty polygon,
    which is the zero value of [Polygon]. *)
Theorem PolygonFromLoops_empty_slice :
  PolygonFromLoops [] = Panic IndexOutOfRange /\
  (forall ls p, PolygonFromLoops ls = Ok p ->
                IsEmpty p = false /\ exists l, ls = [l] /\ loops p = [l]) /\
  IsEmpty zeroPolygon = true.
Proof.
  split; [reflexivity|]. split; [|reflexivity].
  intros ls p. unfold PolygonFromLoops.
  destruct ls as [|l [|l2 ls]].
  - discriminate.
  - simpl. intros [= <-]. split; [reflexivity|]. by exists l.
  - destruct (Z.ltb_spec 1 (len (l :: l2 :: ls))) as [_|Hle]; [discriminate|].
    rewrite !len_cons in Hle. pose proof (len_nonneg ls). lia.
Qed.

(** *** The shape adapter *)

Lemma bool_ne_xorb (acc x : bool) : bool_ne acc x = xorb acc x.
Proof. by destruct acc, x. Qed.

Lemma fold_bool_ne (ls : list Loop) (acc : bool) :
  fold_left (fun a l => bool_ne a (Loop_ContainsOrigin l)) ls acc =
  xorb acc (Nat.odd (length (List.filter Loop_ContainsOrigin ls))).
Proof.
  revert acc. induction ls as [|l ls IH]; intros acc; simpl.
  - by destruct acc.
  - rewrite IH, bool_ne_xorb.
    destruct (Loop_ContainsOrigin l); simpl length.
    + rewrite Nat.odd_succ, <- Nat.negb_odd.
      by destruct acc, (Nat.odd _).
    + by rewrite xorb_false_r.
Qed.

(** C8. [ContainsOrigin] is the exclusive-or of the origin flags of the
    loops: it is true exactly when an odd number of loops contain the
    origin, and false for the empty polygon. *)
Theorem ContainsOrigin_parity (p : Polygon) :
  ContainsOrigin p = foldr xorb false (map Loop_ContainsOrigin (loops p)) /\
  ContainsOrigin p =
    Nat.odd (length (List.filter Loop_ContainsOrigin (loops p))) /\
  (IsEmpty p = true -> ContainsOrigin p = false).
Proof.
  unfold ContainsOrigin, IsEmpty.
  assert (Hodd : forall ls : list Loop,
             foldr xorb false (map Loop_ContainsOrigin ls) =
             Nat.odd (length (List.filter Loop_ContainsOrigin ls))).
  { induction ls as [|l ls IH]; simpl; [done|]. rewrite IH.
    destruct (Loop_ContainsOrigin l); simpl length; [|done].
    by rewrite Nat.odd_succ, <- Nat.negb_odd. }
  rewrite fold_bool_ne, xorb_false_l, Hodd.
  repeat split.
  destruct (loops p); [done|]. rewrite len_cons.
  pose proof (len_nonneg l0) as Hl0. intros Hz%Z.eqb_eq. lia.
Qed.

(** [IsEmpty], [IsFull] and [NumChains] read off the loop sequence. *)
Lemma IsEmpty_loops (p : Polygon) : IsEmpty p = true <-> loops p = [].
Proof.
  unfold IsEmpty. destruct (loops p) as [|l ls]; [done|].
  split; [|done]. intros H%Z.eqb_eq.
  rewrite len_cons in H. pose proof (len_nonneg ls). lia.
Qed.

Lemma IsFull_loops (p : Polygon) :
  IsFull p = true <-> exists l, loops p = [l] /\ Loop_IsFull l = true.
Proof.
  unfold IsFull. destruct (loops p) as [|l [|l2 ls]].
  - split; [done | by intros (l & Hl & _)].
  - change (len [l] =? 1) with true. simpl. split.
    + intros H. by exists l.
    + by intros (l' & [= <-] & H).
  - destruct (Z.eqb_spec (len (l :: l2 :: ls)) 1) as [H|_].
    + rewrite !len_cons in H. pose proof (len_nonneg ls). lia.
    + split; [done | by intros (l' & Hl & _)].
Qed.

Lemma NumChains_loops (p : Polygon) :
  NumChains p =
  match loops p with
  | [] => 0
  | [l] => if Loop_IsFull l then 0 else 1
  | _ => NumLoops p
  end.
Proof.
  unfold NumChains, IsFull, NumLoops. destruct (loops p) as [|l [|l2 ls]].
  - reflexivity.
  - change (len [l] =? 1) with true. simpl. by destruct (Loop_IsFull l).
  - destruct (Z.eqb_spec (len (l :: l2 :: ls)) 1) as [H|_]; [|done].
    rewrite !len_cons in H. pose proof (len_nonneg ls). lia.
Qed.

(** C9. [NumChains] is 0 for the full polygon (a single loop, which is
    full) and for the empty polygon (no loop), and is [NumLoops] for every
    other polygon: one whose loop count is not 1, or whose single loop is
    not full.  [IsFull] and [IsEmpty] hold exactly of those two shapes.
    [FullPolygon()] has the one loop [FullLoop()], is full and has no
    chain; the zero polygon has no loop, is empty and has no chain. *)
Theorem NumChains_spec `{!CollaboratorLaws C} :
  (forall p, NumLoops p = Z.of_nat (length (loops p))) /\
  (forall p, IsEmpty p = true <-> loops p = []) /\
  (forall p, IsFull p = true <->
             exists l, loops p = [l] /\ Loop_IsFull l = true) /\
  (forall p, loops p = [] -> NumChains p = 0 /\ NumLoops p = 0) /\
  (forall p l, loops p = [l] -> Loop_IsFull l = true ->
               NumChains p = 0 /\ NumLoops p = 1) /\
  (forall p l, loops p = [l] -> Loop_IsFull l = false ->
               NumChains p = NumLoops p /\ NumLoops p = 1 /\ IsFull p = false) /\
  (forall p, NumLoops p <> 1 -> NumLoops p <> 0 ->
             NumChains p = NumLoops p /\ IsFull p = false /\ IsEmpty p = false) /\
  (forall p, IsFull p = true -> NumChains p = 0) /\
  (forall p, IsEmpty p = true -> NumChains p = 0) /\
  (forall p, IsFull p = false -> NumChains p = NumLoops p) /\
  (loops FullPolygon = [FullLoop] /\ NumLoops FullPolygon = 1 /\
   IsFull FullPolygon = true /\ NumChains FullPolygon = 0) /\
  (loops zeroPolygon = [] /\ NumLoops zeroPolygon = 0 /\
   IsEmpty zeroPolygon = true /\ NumChains zeroPolygon = 0).
Proof.
  assert (Hfull : IsFull FullPolygon = true)
    by (apply IsFull_loops; exists FullLoop; split; [done | apply FullLoop_IsFull]).
  split; [done|].
  split; [apply IsEmpty_loops|].
  split; [apply IsFull_loops|].
  split.
  { intros p Hp. rewrite NumChains_loops. unfold NumLoops. by rewrite Hp. }
  split.
  { intros p l Hp Hl. rewrite NumChains_loops. unfold NumLoops.
    by rewrite Hp, Hl. }
  split.
  { intros p l Hp Hl. rewrite NumChains_loops. unfold NumLoops, IsFull.
    rewrite Hp, Hl. by repeat split. }
  split.
  { intros p H1 H0. rewrite NumChains_loops. unfold NumLoops, IsFull, IsEmpty in *.
    destruct (Z.eqb_spec (len (loops p)) 1); [done|].
    destruct (Z.eqb_spec (len (loops p)) 0); [done|].
    destruct (loops p) as [|l [|l2 ls]]; done. }
  split.
  { intros p H. unfold NumChains. by rewrite H. }
  split.
  { intros p H%IsEmpty_loops. rewrite NumChains_loops. by rewrite H. }
  split.
  { intros p H. unfold NumChains. by rewrite H. }
  split.
  { repeat split; try done. unfold NumChains. by rewrite Hfull. }
  by repeat split.
Qed.

(** *** The serializer *)

Lemma fold_Loop_encode (ls : list Loop) (e : encoder) :
  fold_left (fun e l => Loop_encode l e) ls e =
  {| w := w e ++ concat (map Loop_encoding ls); err := err e |}.
Proof.
  revert e. induction ls as [|l ls IH]; intros e; simpl.
  - rewrite app_nil_r. by destruct e.
  - rewrite IH. simpl. by rewrite <- app_assoc.
Qed.

(** C6. Encoding a polygon without vertices returns an error and leaves
    the stream as it was. *)
Theorem Encode_zero_vertices (p : Polygon) (out : list byte) :
  numVertices p = 0 ->
  exists msg, Encode p out = (out, Some msg).
Proof.
  intros H. unfold Encode, encode. rewrite H. simpl. by eexists.
Qed.

(** C7. Encoding a polygon that has vertices returns no error and appends
    to the stream, in this order and with nothing in between: the version
    constant as an int8, the flag [true], the [hasHoles] flag, the loop
    count converted to uint32, the encoding of each loop in the order of
    the loop sequence, and the encoding of [bound]; the 32-bit value is
    the loop count itself whenever that fits 32 bits. *)
Theorem Encode_lossless_layout (p : Polygon) (out : list byte) :
  0 < numVertices p ->
  Encode p out =
    (out ++ int8_bytes encodingVersion
         ++ bool_bytes true
         ++ bool_bytes (hasHoles p)
         ++ uint32_bytes (GoInt.uint32 (NumLoops p))
         ++ concat (map Loop_encoding (loops p))
         ++ Rect_encoding (bound p),
     None) /\
  (NumLoops p < 2 ^ 32 -> GoInt.uint32 (NumLoops p) = NumLoops p).
Proof.
  intros H. split.
  - unfold Encode, encode, encodeLossless, NumLoops.
    destruct (Z.eqb_spec (numVertices p) 0); [lia|].
    rewrite fold_Loop_encode. simpl.
    by rewrite <- !app_assoc.
  - unfold GoInt.uint32, NumLoops. intros Hlt.
    pose proof (len_nonneg (loops p)). by rewrite Z.mod_small by lia.
Qed.

End PolygonProperties.

(** ** The properties on concrete polygons *)

(** C2, on a shell with one hole, a valid preorder nesting: the hole is at
    depth 1 and its parent is the shell, loop 0, but [Parent(1)] scans past
    it and returns index -1 with [ok = true]. *)
Theorem Parent_of_hole_skips_shell :
  validDepths Line.nested = true /\
  depthAt Line.nested 1 = 1 /\
  depthAt Line.nested 0 = depthAt Line.nested 1 - 1 /\
  Parent Line.nested 1 = Ok (-1, true).
Proof. repeat split. Qed.

(** C5, on the polygon built from one triangle: the vertex 10 of the
    triangle lies in [bound] and not in [subregionBound], which is the
    empty rectangle. *)
Theorem subregionBound_of_triangle_is_empty :
  exists p,
    PolygonFromLoops [Line.triangle] = Ok p /\
    subregionBound p = EmptyRect /\
    Rect_ContainsPoint (bound p) 10 = true /\
    Rect_ContainsPoint (subregionBound p) 10 = false.
Proof. eexists. repeat split. Qed.

(** ** The theorems at concrete inputs

    Each theorem above that has a premise is applied here to a polygon of
    [Line], its premises being checked by evaluation. *)

Ltac evaluated :=
  vm_compute; repeat split; first [reflexivity | discriminate].

Lemma resolution_modes_agree_witness :
  (loops Line.thirteen_linear = loops Line.thirteen /\
   edgesCounted true Line.thirteen /\
   edgesCounted false Line.thirteen_linear /\
   len (loops Line.thirteen) <= GoInt.max_int /\
   edgeTotal (loops Line.thirteen) <= GoInt.max_int /\
   0 <= 20 < NumEdges Line.thirteen) /\
  (NumEdges Line.thirteen = edgeTotal (loops Line.thirteen) /\
   NumEdges Line.thirteen_linear = NumEdges Line.thirteen /\
   cumulativeEdges Line.thirteen =
     Some (spec_cumulativeEdges 0 (loops Line.thirteen)) /\
   cumulativeEdges Line.thirteen_linear = None /\
   exists i j,
     spec_indexed (table Line.thirteen) 20 i j /\
     spec_linear (loops Line.thirteen_linear) 0 20 = Some (i, j) /\
     ChainPosition_indexed (length (table Line.thirteen))
                           (table Line.thirteen) 0 0 20 = Ok (i, j) /\
     ChainPosition_linear (S (length (loops Line.thirteen_linear)))
                          Line.thirteen_linear 0 20 = Ok (i, j) /\
     ChainPosition Line.thirteen 20 = Ok (Shape.mkChainPosition i j) /\
     ChainPosition Line.thirteen_linear 20 = Ok (Shape.mkChainPosition i j) /\
     Edge Line.thirteen 20 = Edge Line.thirteen_linear 20).
Proof.
  split.
  - repeat split; evaluated.
  - apply (resolution_modes_agree Line.thirteen Line.thirteen_linear 20); evaluated.
Defined.

Lemma Edge_ChainPosition_ChainEdge_witness :
  (edgesCounted false Line.nested /\
   len (loops Line.nested) <= GoInt.max_int /\
   edgeTotal (loops Line.nested) <= GoInt.max_int /\
   0 <= 5 < NumEdges Line.nested) /\
  exists i j v0 v1,
    ChainPosition Line.nested 5 = Ok (Shape.mkChainPosition i j) /\
    Edge Line.nested 5 = Ok (Shape.mkEdge v0 v1) /\
    ChainEdge Line.nested i j = Ok (Shape.mkEdge v0 v1).
Proof.
  split.
  - repeat split; evaluated.
  - apply (proj2 (Edge_ChainPosition_ChainEdge Line.nested 5) false); evaluated.
Defined.

Lemma LastDescendant_spec_witness :
  (len (loops Line.nested) <= GoInt.max_int /\ 0 <= 0 < NumLoops Line.nested) /\
  exists r,
    LastDescendant Line.nested 0 = Ok r /\
    0 <= r < NumLoops Line.nested /\
    (forall j, 0 < j <= r -> depthAt Line.nested 0 < depthAt Line.nested j) /\
    (r + 1 < NumLoops Line.nested ->
     depthAt Line.nested (r + 1) <= depthAt Line.nested 0) /\
    ((0 + 1 < NumLoops Line.nested ->
      depthAt Line.nested (0 + 1) <= depthAt Line.nested 0) -> r = 0).
Proof.
  split.
  - repeat split; evaluated.
  - apply (proj2 (LastDescendant_spec Line.nested 0 ltac:(evaluated))); evaluated.
Defined.

Lemma Encode_zero_vertices_witness :
  numVertices zeroPolygon = 0 /\
  exists msg, Encode (C := Line.collaborators) zeroPolygon [] = ([], Some msg).
Proof.
  split; [reflexivity|].
  apply (Encode_zero_vertices zeroPolygon []). reflexivity.
Defined.

Lemma Encode_lossless_layout_witness :
  0 < numVertices Line.nested /\
  Encode Line.nested [] =
    ([] ++ int8_bytes encodingVersion
        ++ bool_bytes true
        ++ bool_bytes (hasHoles Line.nested)
        ++ uint32_bytes (GoInt.uint32 (NumLoops Line.nested))
        ++ concat (map Loop_encoding (loops Line.nested))
        ++ Rect_encoding (bound Line.nested),
     None).
Proof.
  split; [reflexivity|].
  apply (proj1 (Encode_lossless_layout Line.nested [] ltac:(reflexivity))).
Defined.

Lemma ContainsOrigin_parity_witness :
  IsEmpty (C := Line.collaborators) zeroPolygon = true /\
  ContainsOrigin (C := Line.collaborators) zeroPolygon = false.
Proof.
  split; [reflexivity|].
  apply (proj2 (proj2 (ContainsOrigin_parity zeroPolygon))). reflexivity.
Defined.

Lemma NumChains_spec_witness :
  CollaboratorLaws Line.collaborators /\
  ((NumLoops Line.nested <> 1 /\ NumLoops Line.nested <> 0) /\
   NumChains Line.nested = NumLoops Line.nested /\
   IsFull Line.nested = false /\ IsEmpty Line.nested = false) /\
  ((loops Line.single = [Line.triangle] /\ Loop_IsFull Line.triangle = false) /\
   NumChains Line.single = NumLoops Line.single /\
   NumLoops Line.single = 1 /\ IsFull Line.single = false) /\
  (IsFull (C := Line.collaborators) FullPolygon = true /\
   NumChains (C := Line.collaborators) FullPolygon = 0).
Proof.
  pose proof (@NumChains_spec Line.collaborators Line.laws)
    as (_ & _ & _ & _ & _ & Hsingle & Hmany & Hfull & _).
  split; [exact Line.laws|].
  split; [split; [evaluated | apply Hmany; evaluated]|].
  split; [split; [evaluated | apply (Hsingle Line.single Line.triangle); evaluated]|].
  split; [reflexivity | apply Hfull; reflexivity].
Defined.

Lemma PolygonFromLoops_empty_slice_witness :
  exists p,
    PolygonFromLoops [Line.triangle] = Ok p /\
    IsEmpty p = false /\
    exists l, [Line.triangle] = [l] /\ loops p = [l].
Proof.
  eexists. split; [reflexivity|].
  apply (proj1 (proj2 (@PolygonFromLoops_empty_slice Line.collaborators))
               [Line.triangle]). reflexivity.
Defined.

(** The table of thirteen triangles and the resolution of edge 20 in both
    modes: loop 6, local edge 2, the edge from vertex 30 back to vertex 10. *)
Example thirteen_triangles :
  cumulativeEdges Line.thirteen =
    Some [0; 3; 6; 9; 12; 15; 18; 21; 24; 27; 30; 33; 36] /\
  NumEdges Line.thirteen = 39 /\
  ChainPosition Line.thirteen 20 = Ok (Shape.mkChainPosition 6 2) /\
  ChainPosition Line.thirteen_linear 20 = Ok (Shape.mkChainPosition 6 2) /\
  Edge Line.thirteen 20 = Ok (Shape.mkEdge 30 10) /\
  Edge Line.thirteen_linear 20 = Ok (Shape.mkEdge 30 10).
Proof. repeat split. Qed.

(** ** Further properties of the code *)

Section PolygonExtras.

Context {C : Collaborators}.

Ltac fits := unfold GoInt.fits, GoInt.min_int, GoInt.max_int in *; lia.

(** *** Helpers *)

Lemma edgeTotal_take_total (ls : list Loop) (m : nat) :
  edgeTotal (take m ls) <= edgeTotal ls.
Proof.
  rewrite <- (take_drop m ls) at 2. rewrite edgeTotal_app.
  pose proof (edgeTotal_nonneg (drop m ls)). lia.
Qed.

Lemma edgeTotal_take_S (ls : list Loop) (m : nat) (l : Loop) :
  ls !! m = Some l ->
  edgeTotal (take (S m) ls) = edgeTotal (take m ls) + edgeCount l.
Proof. intros H. by rewrite (take_S_r ls m l H), edgeTotal_snoc. Qed.

Lemma Loop_lookup (p : Polygon) (i : Z) (l : Loop) :
  0 <= i -> loops p !! Z.to_nat i = Some l -> Loop_ p i = Ok l.
Proof.
  intros Hi Hl. unfold Loop_. rewrite <- (Z2Nat.id i) by done. by apply at_lookup.
Qed.

(** Entry [i] of the table, read at a loop index. *)
Lemma table_at (ls : list Loop) (i : Z) (l : Loop) :
  0 <= i -> ls !! Z.to_nat i = Some l ->
  at_ (spec_cumulativeEdges 0 ls) i = Ok (edgeTotal (take (Z.to_nat i) ls)).
Proof.
  intros Hi Hl.
  destruct (lookup_lt_is_Some_2 (spec_cumulativeEdges 0 ls) (Z.to_nat i)) as [c Hc].
  { rewrite spec_cumulativeEdges_length. by eapply lookup_lt_Some. }
  pose proof (spec_cumulativeEdges_lookup _ _ _ _ Hc) as Heq.
  rewrite Z.add_0_l in Heq. subst c.
  rewrite <- (Z2Nat.id i) at 1 by done. by apply at_lookup.
Qed.

(** The loop of [Chain] adds up the loops from [j] to [chainID]. *)
Lemma Chain_sum_spec (p : Polygon) (chainID : Z) (fuel : nat) (j : Z) :
  len (loops p) <= GoInt.max_int ->
  edgeTotal (loops p) <= GoInt.max_int ->
  0 <= j <= chainID -> chainID <= len (loops p) ->
  chainID - j < Z.of_nat fuel ->
  Chain_sum fuel p chainID j (edgeTotal (take (Z.to_nat j) (loops p))) =
  Ok (edgeTotal (take (Z.to_nat chainID) (loops p))).
Proof.
  intros Hmax Htot. revert j.
  induction fuel as [|fuel IH]; intros j Hj Hc Hfuel; [lia|].
  simpl. destruct (Z.ltb_spec j chainID) as [Hlt|Hge].
  - unfold Loop_.
    destruct (at_in_range (loops p) j) as (l & Hl & ->); [lia|].
    rewrite bind_Ok. fold (edgeCount l).
    pose proof (edgeTotal_take_total (loops p) (S (Z.to_nat j))) as Hle.
    pose proof (edgeTotal_nonneg (take (Z.to_nat j) (loops p))) as Hnn.
    pose proof (edgeCount_nonneg l) as Hl0.
    rewrite (edgeTotal_take_S _ _ _ Hl) in Hle.
    rewrite !add_fits by fits.
    rewrite <- (edgeTotal_take_S _ _ _ Hl).
    replace (S (Z.to_nat j)) with (Z.to_nat (j + 1)) by lia.
    apply IH; lia.
  - by replace chainID with j by lia.
Qed.


(** [Chain] at a loop index, with the table or without it. *)
Lemma Chain_at (populated : bool) (p : Polygon) (i : Z) (l : Loop) :
  edgesCounted populated p ->
  len (loops p) <= GoInt.max_int ->
  edgeTotal (loops p) <= GoInt.max_int ->
  0 <= i -> loops p !! Z.to_nat i = Some l ->
  Chain p i =
    Ok (Shape.mkChain (edgeTotal (take (Z.to_nat i) (loops p))) (edgeCount l)).
Proof.
  intros Hcount Hmax Htot Hi Hl.
  destruct (edgesCounted_fields populated p Htot Hcount) as [_ Hc].
  assert (Hlt : i < len (loops p)).
  { apply lookup_lt_Some in Hl. unfold len. lia. }
  unfold Chain. rewrite Hc, (Loop_lookup p i l Hi Hl).
  destruct populated.
  - by rewrite (table_at _ _ _ Hi Hl), !bind_Ok.
  - pose proof (Chain_sum_spec p i (S (length (loops p))) 0 Hmax Htot) as Hs.
    simpl take in Hs. simpl edgeTotal in Hs.
    rewrite Hs by (unfold len in *; lia). by rewrite !bind_Ok.
Qed.


(** *** Chains *)

(** X1. On a polygon whose edges have been counted, [Chain(i)] for a loop
    index [i] starts at the number of edges of the loops before loop [i]
    and has the length of loop [i]; the branch that reads the table and the
    branch that adds the loops up return the same chain. *)
Theorem Chain_modes_agree (p q : Polygon) (i : Z) :
  loops q = loops p ->
  edgesCounted true p -> edgesCounted false q ->
  len (loops p) <= GoInt.max_int ->
  edgeTotal (loops p) <= GoInt.max_int ->
  0 <= i < NumLoops p ->
  exists l,
    Loop_ p i = Ok l /\
    Chain p i =
      Ok (Shape.mkChain (edgeTotal (take (Z.to_nat i) (loops p))) (edgeCount l)) /\
    Chain q i = Chain p i.
Proof.
  unfold NumLoops. intros Hloops Hp Hq Hmax Htot Hi.
  destruct (at_in_range (loops p) i Hi) as (l & Hl & Hat).
  exists l. split; [done|].
  rewrite (Chain_at true p i l) by (done || lia).
  split; [done|].
  rewrite (Chain_at false q i l); rewrite ?Hloops; done || lia.
Qed.


(** X3. On a polygon whose edges have been counted (its [numEdges] and
    its table are those the construction loop computes, without overflow),
    the chains tile the edge indices: the first chain starts at 0, each
    chain starts where the one before it ends, and the last chain ends at
    [NumEdges]. *)
Theorem Chain_tiling (populated : bool) (p : Polygon) :
  edgesCounted populated p ->
  len (loops p) <= GoInt.max_int ->
  edgeTotal (loops p) <= GoInt.max_int ->
  (0 < NumLoops p ->
   exists c, Chain p 0 = Ok c /\ Shape.Start c = 0) /\
  (forall i, 0 <= i -> i + 1 < NumLoops p ->
   exists c c', Chain p i = Ok c /\ Chain p (i + 1) = Ok c' /\
                Shape.Start c' = Shape.Start c + Shape.Length c) /\
  (0 < NumLoops p ->
   exists c, Chain p (NumLoops p - 1) = Ok c /\
             Shape.Start c + Shape.Length c = NumEdges p).
Proof.
  unfold NumLoops, NumEdges. intros Hcount Hmax Htot.
  destruct (edgesCounted_fields populated p Htot Hcount) as [Hn _].
  repeat split.
  - intros Hpos.
    destruct (at_in_range (loops p) 0) as (l & Hl & _); [lia|].
    eexists. split; [by apply (Chain_at populated p 0 l)|]. done.
  - intros i Hi Hi1.
    destruct (at_in_range (loops p) i) as (l & Hl & _); [lia|].
    destruct (at_in_range (loops p) (i + 1)) as (l' & Hl' & _); [lia|].
    do 2 eexists. split; [by apply (Chain_at populated p i l)|].
    split; [apply (Chain_at populated p (i + 1) l'); done || lia|].
    simpl. replace (Z.to_nat (i + 1)) with (S (Z.to_nat i)) by lia.
    by apply edgeTotal_take_S.
  - intros Hpos.
    destruct (at_in_range (loops p) (len (loops p) - 1)) as (l & Hl & _); [lia|].
    eexists. split; [apply (Chain_at populated p _ l); done || lia|].
    simpl. rewrite <- (edgeTotal_take_S _ _ _ Hl), Hn.
    f_equal. apply take_ge. unfold len. lia.
Qed.


(** X5. From an edge to its chain and back: for an edge index [e] in range,
    [ChainPosition(e) = (i, j)] names a chain whose start plus [j] is [e],
    with [j] inside the chain. *)
Theorem Chain_of_ChainPosition (populated : bool) (p : Polygon) (e : Z) :
  edgesCounted populated p ->
  len (loops p) <= GoInt.max_int ->
  edgeTotal (loops p) <= GoInt.max_int ->
  0 <= e < NumEdges p ->
  exists i j c,
    ChainPosition p e = Ok (Shape.mkChainPosition i j) /\
    Chain p i = Ok c /\
    Shape.Start c + j = e /\
    0 <= j < Shape.Length c.
Proof.
  intros Hcount Hmax Htot He.
  destruct (ChainPosition_in_range populated p e Hcount Hmax Htot He)
    as (i & j & l & Hcp & Hs & Hi & Hl & Hj & _).
  apply spec_linear_inv in Hs as (m & l0 & Hm & Hl0 & Hj0 & _);
    [|unfold NumEdges in He; lia].
  rewrite Z.add_0_l in Hm. subst i. rewrite Nat2Z.id in Hl.
  exists (Z.of_nat m), j. eexists.
  split; [done|].
  split; [apply (Chain_at populated p _ l); rewrite ?Nat2Z.id; done || lia|].
  simpl. rewrite Nat2Z.id. split; lia.
Qed.

(** *** The hierarchy *)

(** The block of a loop: what [LastDescendant] returns at a loop index. *)
Lemma LastDescendant_block (p : Polygon) (k : Z) :
  len (loops p) <= GoInt.max_int ->
  0 <= k < len (loops p) ->
  exists r,
    LastDescendant p k = Ok r /\
    k <= r < len (loops p) /\
    (forall j, k < j <= r -> depthAt p k < depthAt p j) /\
    (r + 1 < len (loops p) -> depthAt p (r + 1) <= depthAt p k).
Proof.
  intros Hmax Hk. unfold LastDescendant.
  destruct (Z.ltb_spec k 0); [lia|].
  destruct (at_in_range (loops p) k) as (l & Hl & ->); [lia|].
  rewrite bind_Ok, add_fits by fits.
  destruct (LastDescendant_scan_spec p (depth l) (S (length (loops p))) (k + 1))
    as (m & -> & Hr & Hin & Hout); [done|lia|unfold len; lia|].
  rewrite bind_Ok, sub_fits by fits.
  rewrite (depthAt_lookup p k l) by (done || lia).
  exists (m - 1). repeat split; try lia.
  - intros j Hj. apply Hin. lia.
  - intros Hlt. replace (m - 1 + 1) with m by lia. apply Hout. lia.
Qed.

Lemma LastDescendant_Ok_range (p : Polygon) (k r : Z) :
  LastDescendant p k = Ok r -> k < len (loops p).
Proof.
  unfold LastDescendant. pose proof (len_nonneg (loops p)).
  destruct (Z.ltb_spec k 0); [lia|].
  destruct (decide (k < len (loops p))); [done|].
  by rewrite at_out_of_range by lia.
Qed.

Lemma LastDescendant_within (p : Polygon) (k r j : Z) :
  len (loops p) <= GoInt.max_int ->
  0 <= k -> LastDescendant p k = Ok r -> k < j <= r ->
  exists rj, LastDescendant p j = Ok rj /\ j <= rj <= r.
Proof.
  intros Hmax Hk Hr Hj.
  pose proof (LastDescendant_Ok_range p k r Hr) as Hlt.
  destruct (LastDescendant_block p k Hmax) as (r' & Hr' & Hrange & Hin & Hout); [lia|].
  rewrite Hr in Hr'. injection Hr' as <-.
  destruct (LastDescendant_block p j Hmax) as (rj & Hrj & Hjrange & Hjin & Hjout); [lia|].
  exists rj. split; [done|]. split; [lia|].
  destruct (decide (rj <= r)) as [|Hgt]; [done|]. exfalso.
  assert (depthAt p j < depthAt p (r + 1)) by (apply Hjin; lia).
  assert (depthAt p (r + 1) <= depthAt p k) by (apply Hout; lia).
  assert (depthAt p k < depthAt p j) by (apply Hin; lia).
  lia.
Qed.

(** X6. Blocks are nested: a loop inside the block of loop [k] has its own
    block inside the block of [k]. *)
Theorem LastDescendant_nested (p : Polygon) (k r j : Z) :
  len (loops p) <= GoInt.max_int ->
  0 <= k -> LastDescendant p k = Ok r -> k < j <= r ->
  exists rj, LastDescendant p j = Ok rj /\ j <= rj <= r.
Proof. apply LastDescendant_within. Qed.

(** X7. [LastDescendant] is idempotent: the last descendant of a loop (or
    of the root, a negative index) is its own last descendant. *)
Theorem LastDescendant_idempotent (p : Polygon) (k r : Z) :
  len (loops p) <= GoInt.max_int ->
  LastDescendant p k = Ok r ->
  LastDescendant p r = Ok r.
Proof.
  intros Hmax Hr. pose proof (len_nonneg (loops p)) as Hlen.
  destruct (decide (k < 0)) as [Hneg|Hpos].
  - assert (r = len (loops p) - 1) as ->.
    { revert Hr. unfold LastDescendant. destruct (Z.ltb_spec k 0); [|lia].
      rewrite sub_fits by fits. congruence. }
    destruct (decide (len (loops p) = 0)) as [Hz|Hnz].
    + rewrite Hz. unfold LastDescendant. simpl. rewrite Hz. reflexivity.
    + destruct (LastDescendant_block p (len (loops p) - 1) Hmax)
        as (r' & -> & Hrange & _); [lia|].
      f_equal. lia.
  - pose proof (LastDescendant_Ok_range p k r Hr) as Hlt.
    destruct (LastDescendant_block p k Hmax) as (r' & Hr' & Hrange & _); [lia|].
    rewrite Hr in Hr'. injection Hr' as <-.
    destruct (decide (r = k)) as [->|Hne]; [done|].
    destruct (LastDescendant_within p k r r Hmax) as (rr & -> & Hrr); [lia|done|lia|].
    f_equal. lia.
Qed.

(** X8. [Parent] at a loop index: it reports not-found (with index -1)
    exactly for a loop at depth 0; otherwise it returns, with [ok = true],
    an index before [k] that is -1 or the nearest earlier loop strictly
    deeper than loop [k], every loop in between being at most as deep as
    loop [k]. *)
Theorem Parent_characterised (p : Polygon) (k : Z) :
  len (loops p) <= GoInt.max_int ->
  0 <= k < NumLoops p ->
  exists r ok,
    Parent p k = Ok (r, ok) /\
    -1 <= r < k /\
    (ok = false <-> depthAt p k = 0) /\
    (ok = false -> r = -1) /\
    (ok = true ->
     (forall j, r < j < k -> depthAt p j <= depthAt p k) /\
     (0 <= r -> depthAt p k < depthAt p r)).
Proof.
  intros Hmax Hk.
  destruct (decide (depthAt p k = 0)) as [Hd|Hd].
  - exists (-1), false. rewrite (Parent_top_level p k Hk Hd).
    repeat split; try done; lia.
  - destruct (Parent_nearest_deeper p k Hmax Hk Hd) as (r & -> & Hr & Hin & Hout).
    exists r, true. repeat split; try done; try lia.
Qed.

(** X9. Indices that are not loop indices: [Loop], [Parent], [loopIsHole]
    and [loopSign] panic with an index out of range below 0 and from
    [NumLoops] on; [LastDescendant] panics from [NumLoops] on (and takes
    every negative index for the root). *)
Theorem loop_index_out_of_range (p : Polygon) (k : Z) :
  (k < 0 \/ NumLoops p <= k ->
   Loop_ p k = Panic IndexOutOfRange /\
   Parent p k = Panic IndexOutOfRange /\
   loopIsHole p k = Panic IndexOutOfRange /\
   loopSign p k = Panic IndexOutOfRange) /\
  (NumLoops p <= k -> LastDescendant p k = Panic IndexOutOfRange) /\
  (k < 0 -> LastDescendant p k = LastDescendant p (-1)).
Proof.
  unfold NumLoops. pose proof (len_nonneg (loops p)) as Hlen.
  repeat split.
  - by apply at_out_of_range.
  - unfold Parent. by rewrite at_out_of_range.
  - unfold loopIsHole. by rewrite at_out_of_range.
  - unfold loopSign, loopIsHole. by rewrite at_out_of_range.
  - intros Hk. unfold LastDescendant. destruct (Z.ltb_spec k 0); [lia|].
    by rewrite at_out_of_range by lia.
  - intros Hk. unfold LastDescendant. by destruct (Z.ltb_spec k 0); [|lia].
Qed.

Lemma land_1_odd (d : Z) : (Z.land d 1 =? 0) = negb (Z.odd d).
Proof.
  change 1 with (Z.ones 1) at 1. rewrite Z.land_ones by lia.
  change (2 ^ 1) with 2. rewrite Zmod_odd. by destruct (Z.odd d).
Qed.

(** X10. [loopIsHole] is the parity of the depth ([depth & 1] is 1 exactly
    for an odd depth, negative ones included) and [loopSign] is -1 for an
    odd depth and +1 for an even one; two loops at adjacent depths have
    opposite signs. *)
Theorem loopSign_parity (p : Polygon) (k : Z) :
  0 <= k < NumLoops p ->
  loopIsHole p k = Ok (Z.odd (depthAt p k)) /\
  loopSign p k = Ok (if Z.odd (depthAt p k) then -1 else 1) /\
  (forall j, 0 <= j < NumLoops p -> depthAt p j = depthAt p k + 1 ->
   exists s, loopSign p k = Ok s /\ loopSign p j = Ok (- s)).
Proof.
  unfold NumLoops.
  assert (Hhole : forall i, 0 <= i < len (loops p) ->
            loopIsHole p i = Ok (Z.odd (depthAt p i))).
  { intros i Hi. unfold loopIsHole.
    destruct (at_in_range (loops p) i Hi) as (l & Hl & ->).
    rewrite bind_Ok, land_1_odd, negb_involutive.
    by rewrite (depthAt_lookup p i l) by (done || lia). }
  assert (Hsign : forall i, 0 <= i < len (loops p) ->
            loopSign p i = Ok (if Z.odd (depthAt p i) then -1 else 1)).
  { intros i Hi. unfold loopSign. by rewrite (Hhole i Hi). }
  intros Hk. repeat split; [by apply Hhole | by apply Hsign |].
  intros j Hj Hd. eexists. split; [by apply Hsign|].
  rewrite (Hsign j Hj), Hd, Z.add_1_r, Z.odd_succ, <- Z.negb_odd.
  by destruct (Z.odd (depthAt p k)).
Qed.

(** *** Edge indices out of range *)

(** Past the total, the linear loop runs into [p.Loop(len(p.loops))]. *)
Lemma ChainPosition_linear_past_end (p : Polygon) (suf pre : list Loop)
      (fuel : nat) (e : Z) :
  loops p = pre ++ suf ->
  len (loops p) <= GoInt.max_int ->
  (length suf < fuel)%nat ->
  edgeTotal suf <= e -> e <= GoInt.max_int ->
  ChainPosition_linear fuel p (len pre) e = Panic IndexOutOfRange.
Proof.
  intros Hp Hmax. revert pre fuel e Hp.
  induction suf as [|l suf IH]; intros pre fuel e Hp Hfuel He Hemax;
    (destruct fuel as [|fuel]; [simpl in Hfuel; lia|]); simpl; unfold Loop_.
  - rewrite at_out_of_range; [done|].
    right. rewrite Hp, app_nil_r. lia.
  - rewrite Hp, at_middle, !bind_Ok. fold (edgeCount l).
    simpl in He.
    pose proof (edgeCount_nonneg l). pose proof (edgeTotal_nonneg suf).
    pose proof (len_nonneg pre). pose proof (len_nonneg suf).
    rewrite Hp, len_app, len_cons in Hmax.
    destruct (Z.leb_spec (edgeCount l) e); [|lia].
    rewrite add_fits, sub_fits by fits.
    replace (len pre + 1) with (len (pre ++ [l])) by (by rewrite len_app).
    apply IH; [by rewrite Hp, <- app_assoc | simpl in Hfuel; lia | lia | lia].
Qed.

(** Past the total, the indexed loop stops at the last entry of the
    table. *)
Lemma ChainPosition_indexed_past_end (mid pre : list Loop) (l : Loop)
      (icur e : Z) :
  len (pre ++ mid ++ [l]) <= GoInt.max_int ->
  edgeTotal (pre ++ mid ++ [l]) <= e -> e <= GoInt.max_int ->
  ChainPosition_indexed (length (mid ++ [l]))
                        (spec_cumulativeEdges 0 (pre ++ mid ++ [l]))
                        (len pre) icur e =
  Ok (len pre + len mid, e - edgeTotal (pre ++ mid)).
Proof.
  revert pre icur.
  induction mid as [|l0 mid IH]; intros pre icur Hmax He Hemax.
  - simpl app in *. rewrite app_nil_r.
    rewrite len_app in Hmax. change (len [l]) with 1 in Hmax.
    rewrite edgeTotal_snoc in He.
    pose proof (edgeCount_nonneg l). pose proof (edgeTotal_nonneg pre).
    pose proof (len_nonneg pre).
    simpl. rewrite add_fits by fits.
    assert (Hlen : len (spec_cumulativeEdges 0 (pre ++ [l])) = len pre + 1).
    { unfold len. rewrite spec_cumulativeEdges_length, length_app. simpl. lia. }
    rewrite Hlen. destruct (Z.leb_spec (len pre + 1) (len pre + 1)); [|lia].
    rewrite (at_lookup _ (length pre) (edgeTotal pre))
      by apply spec_cumulativeEdges_middle.
    rewrite bind_Ok, sub_fits by fits.
    change (len []) with 0. do 2 f_equal. lia.
  - change ((l0 :: mid) ++ [l]) with (l0 :: mid ++ [l]) in *.
    pose proof (edgeCount_nonneg l0). pose proof (edgeTotal_nonneg pre).
    pose proof (len_nonneg pre). pose proof (len_nonneg mid).
    pose proof (edgeTotal_nonneg (mid ++ [l])).
    assert (Hlen : len (spec_cumulativeEdges 0 (pre ++ l0 :: mid ++ [l]))
                   = len pre + 1 + (len mid + 1)).
    { unfold len. rewrite spec_cumulativeEdges_length.
      repeat first [rewrite length_app | progress simpl]. lia. }
    assert (Hmax' : len pre + 1 + (len mid + 1) <= GoInt.max_int).
    { revert Hmax. unfold len.
      repeat first [rewrite length_app | progress simpl]. lia. }
    assert (He' : edgeTotal pre + (edgeCount l0 + edgeTotal (mid ++ [l])) <= e).
    { revert He. rewrite edgeTotal_app. simpl. lia. }
    assert (Hnext : at_ (spec_cumulativeEdges 0 (pre ++ l0 :: mid ++ [l]))
                        (len pre + 1) = Ok (edgeTotal pre + edgeCount l0)).
    { replace (len pre + 1) with (Z.of_nat (length (pre ++ [l0])))
        by (unfold len; rewrite length_app; simpl; lia).
      apply at_lookup.
      replace (pre ++ l0 :: mid ++ [l]) with ((pre ++ [l0]) ++ mid ++ [l])
        by (by rewrite <- app_assoc).
      destruct mid as [|l1 mid]; simpl app at 2;
        by rewrite spec_cumulativeEdges_middle, edgeTotal_snoc. }
    simpl ChainPosition_indexed.
    rewrite add_fits by fits.
    rewrite Hlen. destruct (Z.leb_spec (len pre + 1 + (len mid + 1)) (len pre + 1));
      [lia|].
    rewrite Hnext, bind_Ok.
    destruct (Z.ltb_spec e (edgeTotal pre + edgeCount l0)); [lia|].
    specialize (IH (pre ++ [l0]) (len pre)).
    replace ((pre ++ [l0]) ++ mid ++ [l]) with (pre ++ l0 :: mid ++ [l]) in IH
      by (by rewrite <- app_assoc).
    replace (len (pre ++ [l0])) with (len pre + 1) in IH by (by rewrite len_app).
    rewrite IH by done.
    rewrite len_cons. do 2 f_equal; [lia|].
    f_equal. by rewrite <- app_assoc.
Qed.

(** X11. Past the last edge the two modes part.  On polygons whose edges
    have been counted (their [numEdges] and table are those the
    construction loop computes, without overflow), for an edge index from
    [NumEdges] on, [ChainPosition] and [Edge] panic with an index out of
    range when there is no table, while with the table [ChainPosition]
    returns the last loop with an offset that is not an edge of it. *)
Theorem ChainPosition_past_the_end (p q : Polygon) (front : list Loop)
        (l : Loop) (e : Z) :
  loops p = front ++ [l] -> loops q = loops p ->
  edgesCounted true p -> edgesCounted false q ->
  len (loops p) <= GoInt.max_int ->
  edgeTotal (loops p) <= GoInt.max_int ->
  NumEdges p <= e -> e <= GoInt.max_int ->
  ChainPosition q e = Panic IndexOutOfRange /\
  Edge q e = Panic IndexOutOfRange /\
  ChainPosition p e =
    Ok (Shape.mkChainPosition (NumLoops p - 1) (e - edgeTotal front)) /\
  edgeCount l <= e - edgeTotal front.
Proof.
  unfold NumEdges, NumLoops. intros Hp Hq Hcp Hcq Hmax Htot He Hemax.
  assert (Htotq : edgeTotal (loops q) <= GoInt.max_int) by (by rewrite Hq).
  destruct (edgesCounted_fields true p Htot Hcp) as [Hnp Htp].
  destruct (edgesCounted_fields false q Htotq Hcq) as [_ Htq].
  assert (Hq1 : ChainPosition q e = Panic IndexOutOfRange).
  { rewrite ChainPosition_without_table by (unfold table; by rewrite Htq).
    rewrite (ChainPosition_linear_past_end q (loops q) []);
      rewrite ?Hq; done || lia. }
  repeat split; try done.
  - by rewrite Edge_via_ChainPosition, Hq1.
  - rewrite ChainPosition_with_table; unfold table; rewrite Htp; simpl default.
    2:{ unfold len. rewrite spec_cumulativeEdges_length, Hp, length_app.
        simpl. lia. }
    rewrite spec_cumulativeEdges_length.
    pose proof (ChainPosition_indexed_past_end front [] l 0 e) as Hi.
    simpl app in Hi. rewrite <- Hp in Hi.
    change (len []) with 0 in Hi.
    rewrite Hi by (done || lia).
    rewrite bind_Ok. simpl. do 2 f_equal.
    rewrite Hp, len_app. change (len [l]) with 1. lia.
  - rewrite Hnp, Hp, edgeTotal_snoc in He. lia.
Qed.


(** *** Construction *)

(** X13. The table that the construction loop makes: it is made exactly
    when there are more than [maxLinearSearchLoops] loops, has one entry
    per loop, entry [i] being the number of edges of the loops before loop
    [i], and its entries go from 0 up without ever decreasing or exceeding
    [numEdges], which is the total number of edges. *)
Theorem initEdges_table (ls : list Loop) (p : Polygon) :
  numEdges p = 0 -> cumulativeEdges p = None ->
  edgeTotal ls <= GoInt.max_int ->
  numEdges (initEdges ls p) = edgeTotal ls /\
  (len ls <= maxLinearSearchLoops -> cumulativeEdges (initEdges ls p) = None) /\
  (maxLinearSearchLoops < len ls ->
   exists t,
     cumulativeEdges (initEdges ls p) = Some t /\
     length t = length ls /\
     (forall (i : nat) a, t !! i = Some a -> a = edgeTotal (take i ls)) /\
     (forall (i j : nat) a b, (i <= j)%nat -> t !! i = Some a -> t !! j = Some b ->
                              0 <= a <= b /\ b <= numEdges (initEdges ls p))).
Proof.
  intros Hn Hc Htot. unfold initEdges. simpl. rewrite Hn, Hc.
  rewrite fold_addLoopEdges by lia. simpl.
  split; [lia|]. split.
  - intros Hle. by destruct (Z.ltb_spec maxLinearSearchLoops (len ls)); [lia|].
  - intros Hgt. destruct (Z.ltb_spec maxLinearSearchLoops (len ls)); [|lia].
    exists (spec_cumulativeEdges 0 ls). simpl.
    split; [done|]. split; [apply spec_cumulativeEdges_length|]. split.
    + intros i a Ha. apply spec_cumulativeEdges_lookup in Ha. lia.
    + intros i j a b Hij Ha Hb.
      apply spec_cumulativeEdges_lookup in Ha, Hb. subst a b.
      pose proof (edgeTotal_nonneg (take i ls)).
      pose proof (edgeTotal_take_le ls i j Hij).
      pose proof (edgeTotal_take_total ls j). lia.
Qed.

(** X14. What [PolygonFromLoops] does is decided by the length of the
    slice: it panics with an index out of range on no loop, returns a
    polygon on one loop, and panics with its not-implemented message on
    more than one. *)
Theorem PolygonFromLoops_outcomes (ls : list Loop) :
  (len ls = 0 -> PolygonFromLoops ls = Panic IndexOutOfRange) /\
  (len ls = 1 -> exists p, PolygonFromLoops ls = Ok p /\ loops p = ls) /\
  (1 < len ls ->
   PolygonFromLoops ls =
   Panic (Explicit "PolygonFromLoops for multiple loops is not yet implemented")).
Proof.
  destruct ls as [|l [|l2 ls]].
  - repeat split; intros H; try done; unfold len in H; simpl in H; lia.
  - split; [intros H; unfold len in H; simpl in H; lia|].
    split; [|intros H; unfold len in H; simpl in H; lia].
    intros _. eexists. by split.
  - pose proof (len_nonneg ls).
    split; [rewrite !len_cons; lia|].
    split; [rewrite !len_cons; lia|].
    intros Hlt. unfold PolygonFromLoops.
    by destruct (Z.ltb_spec 1 (len (l :: l2 :: ls))); [|lia].
Qed.

(** X15. The polygon built from one loop: it has one loop, as many edges
    and vertices as the loop has vertices, and one chain that starts at 0
    and holds them all; every edge index in range is its own offset in
    chain 0 and [Edge] is [ChainEdge] on chain 0; loop 0 is its own last
    descendant; the polygon contains the origin exactly when the loop does;
    and it has no chain when the loop is full, one otherwise. *)
Theorem single_loop_polygon (l : Loop) :
  len (vertices l) <= GoInt.max_int ->
  exists p,
    PolygonFromLoops [l] = Ok p /\
    NumLoops p = 1 /\
    NumEdges p = len (vertices l) /\
    numVertices p = NumEdges p /\
    cumulativeEdges p = None /\
    Chain p 0 = Ok (Shape.mkChain 0 (len (vertices l))) /\
    (forall e, 0 <= e < NumEdges p ->
               ChainPosition p e = Ok (Shape.mkChainPosition 0 e) /\
               Edge p e = ChainEdge p 0 e) /\
    LastDescendant p 0 = Ok 0 /\
    ContainsOrigin p = Loop_ContainsOrigin l /\
    NumChains p = (if Loop_IsFull l then 0 else 1).
Proof.
  intros Hmax.
  destruct (PolygonFromLoops [l]) as [p| |] eqn:Hp; try discriminate.
  pose proof (PolygonFromLoops_edgesCounted [l] p Hp) as Hcount.
  assert (Hloops : loops p = [l]) by (by injection Hp as <-).
  assert (Hnv : numVertices p = len (vertices l)) by (by injection Hp as <-).
  assert (Hlen : len (loops p) = 1) by (by rewrite Hloops).
  assert (Htot : edgeTotal (loops p) <= GoInt.max_int).
  { rewrite Hloops. simpl. unfold edgeCount. lia. }
  assert (Hlmax : len (loops p) <= GoInt.max_int) by (rewrite Hlen; done).
  destruct (edgesCounted_fields false p Htot Hcount) as [Hn Hc].
  assert (Hne : numEdges p = len (vertices l)).
  { rewrite Hn, Hloops. simpl. unfold edgeCount. lia. }
  assert (Hl0 : loops p !! Z.to_nat 0 = Some l) by (by rewrite Hloops).
  exists p. unfold NumLoops, NumEdges.
  split; [done|]. split; [done|]. split; [done|]. split; [lia|].
  split; [done|]. split.
  { rewrite (Chain_at false p 0 l) by done. done. }
  split.
  { intros e He.
    destruct (ChainPosition_in_range false p e Hcount Hlmax Htot He)
      as (i & j & l' & Hcp & Hs & _).
    rewrite Hloops in Hs. simpl in Hs. unfold edgeCount in Hs.
    destruct (Z.ltb_spec e (len (vertices l))); [|lia].
    injection Hs as <- <-.
    split; [done|]. by rewrite Edge_via_ChainPosition, Hcp. }
  split.
  { destruct (LastDescendant_block p 0 Hlmax) as (r & -> & Hr & _); [lia|].
    f_equal. lia. }
  split.
  { unfold ContainsOrigin. rewrite Hloops. simpl.
    by destruct (Loop_ContainsOrigin l). }
  unfold NumChains, IsFull, NumLoops. rewrite Hloops. simpl.
  by destruct (Loop_IsFull l).
Qed.

(** *** The shape adapter *)

Lemma filter_length_Permutation (f : Loop -> bool) (a b : list Loop) :
  Permutation a b ->
  length (List.filter f a) = length (List.filter f b).
Proof.
  induction 1 as [|x a b _ IH|x y a|a b c _ IH1 _ IH2]; simpl.
  - done.
  - destruct (f x); simpl; by rewrite IH.
  - by destruct (f x), (f y).
  - by rewrite IH1.
Qed.

(** X16. [ContainsOrigin] does not depend on the order of the loops, and a
    polygon with further loops contains the origin exactly when the
    polygon and the further loops, taken as a polygon, disagree. *)
Theorem ContainsOrigin_order (p q r : Polygon) :
  (Permutation (loops p) (loops q) -> ContainsOrigin p = ContainsOrigin q) /\
  (loops r = loops p ++ loops q ->
   ContainsOrigin r = xorb (ContainsOrigin p) (ContainsOrigin q)).
Proof.
  unfold ContainsOrigin. rewrite !fold_bool_ne, !xorb_false_l. split.
  - intros H. by rewrite (filter_length_Permutation _ _ _ H).
  - intros ->. rewrite List.filter_app, length_app.
    rewrite Nat.odd_add. by destruct (Nat.odd _), (Nat.odd _).
Qed.

(** X17. A polygon has no chain exactly when it is empty or full; it is
    never both, and otherwise it has as many chains as loops. *)
Theorem NumChains_zero_iff (p : Polygon) :
  (NumChains p = 0 <-> IsEmpty p = true \/ IsFull p = true) /\
  (IsEmpty p = true -> IsFull p = false) /\
  0 <= NumChains p <= NumLoops p.
Proof.
  unfold NumChains, IsEmpty, IsFull, NumLoops.
  pose proof (len_nonneg (loops p)) as Hlen.
  destruct (Z.eqb_spec (len (loops p)) 0) as [H0|H0];
    destruct (Z.eqb_spec (len (loops p)) 1) as [H1|H1]; try lia; simpl.
  - split; [|split; [done|lia]].
    split; [by left | done].
  - destruct (loops p) as [|l ls]; [done|].
    destruct (Loop_IsFull l).
    + split; [|split; [done|lia]]. split; [by right | done].
    + split; [|split; [done|lia]]. split; [lia | by intros [|]].
  - split; [|split; [done|lia]]. split; [lia | by intros [|]].
Qed.

(** *** The serializer *)

(** X18. [Encode] only appends: the stream it is given is a prefix of the
    stream it leaves, the bytes it adds and the error it returns do not
    depend on what the stream held, it returns an error exactly when
    [numVertices] is 0, and then it adds nothing. *)
Theorem Encode_appends (p : Polygon) (out : list byte) :
  Encode p out = (out ++ (Encode p []).1, (Encode p []).2) /\
  ((Encode p out).2 = None <-> numVertices p <> 0) /\
  (numVertices p = 0 -> (Encode p out).1 = out).
Proof.
  unfold Encode, encode, encodeLossless.
  destruct (Z.eqb_spec (numVertices p) 0) as [Hz|Hnz]; simpl.
  - rewrite app_nil_r. repeat split; done.
  - rewrite !fold_Loop_encode. simpl.
    rewrite <- !app_assoc. repeat split; done.
Qed.

(** X19. Encoding the polygon built from one loop: with a loop that has a
    vertex the stream receives the version, the flag [true], [hasHoles] as
    [false], the loop count 1, the encoding of the loop and the encoding of
    the loop's rectangle; with a loop that has no vertex it receives
    nothing and [Encode] returns an error. *)
Theorem Encode_single_loop (l : Loop) (out : list byte) :
  exists p,
    PolygonFromLoops [l] = Ok p /\
    (0 < len (vertices l) ->
     Encode p out =
       (out ++ int8_bytes encodingVersion
            ++ bool_bytes true
            ++ bool_bytes false
            ++ uint32_bytes 1
            ++ Loop_encoding l
            ++ Rect_encoding (Loop_RectBound l),
        None)) /\
    (len (vertices l) = 0 ->
     exists msg, Encode p out = (out, Some msg)).
Proof.
  eexists. split; [reflexivity|].
  unfold Encode, encode, encodeLossless, Loop_Vertices. simpl numVertices.
  split.
  - intros Hpos. destruct (Z.eqb_spec (len (vertices l)) 0); [lia|].
    simpl. change (GoInt.uint32 (len [l])) with 1.
    by rewrite <- !app_assoc.
  - intros ->. simpl. by eexists.
Qed.

End PolygonExtras.

(** ** The further properties at concrete inputs *)

Lemma Chain_modes_agree_witness :
  (loops Line.thirteen_linear = loops Line.thirteen /\
   edgesCounted true Line.thirteen /\
   edgesCounted false Line.thirteen_linear /\
   len (loops Line.thirteen) <= GoInt.max_int /\
   edgeTotal (loops Line.thirteen) <= GoInt.max_int /\
   0 <= 7 < NumLoops Line.thirteen) /\
  exists l,
    Loop_ Line.thirteen 7 = Ok l /\
    Chain Line.thirteen 7 =
      Ok (Shape.mkChain (edgeTotal (take (Z.to_nat 7) (loops Line.thirteen)))
                        (edgeCount l)) /\
    Chain Line.thirteen_linear 7 = Chain Line.thirteen 7.
Proof.
  split.
  - repeat split; evaluated.
  - apply (Chain_modes_agree Line.thirteen Line.thirteen_linear 7); evaluated.
Defined.


Lemma Chain_tiling_witness :
  (edgesCounted true Line.thirteen /\
   len (loops Line.thirteen) <= GoInt.max_int /\
   edgeTotal (loops Line.thirteen) <= GoInt.max_int /\
   0 <= 4 /\ 4 + 1 < NumLoops Line.thirteen) /\
  exists c c',
    Chain Line.thirteen 4 = Ok c /\ Chain Line.thirteen (4 + 1) = Ok c' /\
    Shape.Start c' = Shape.Start c + Shape.Length c.
Proof.
  split.
  - repeat split; evaluated.
  - apply (proj1 (proj2 (Chain_tiling true Line.thirteen
                           ltac:(evaluated) ltac:(evaluated) ltac:(evaluated))));
      evaluated.
Defined.


Lemma Chain_of_ChainPosition_witness :
  (edgesCounted true Line.thirteen /\
   len (loops Line.thirteen) <= GoInt.max_int /\
   edgeTotal (loops Line.thirteen) <= GoInt.max_int /\
   0 <= 20 < NumEdges Line.thirteen) /\
  exists i j c,
    ChainPosition Line.thirteen 20 = Ok (Shape.mkChainPosition i j) /\
    Chain Line.thirteen i = Ok c /\
    Shape.Start c + j = 20 /\
    0 <= j < Shape.Length c.
Proof.
  split.
  - repeat split; evaluated.
  - apply (Chain_of_ChainPosition true Line.thirteen 20); evaluated.
Defined.

Lemma LastDescendant_nested_witness :
  (len (loops Line.nested) <= GoInt.max_int /\
   0 <= 0 /\
   LastDescendant Line.nested 0 = Ok 1 /\
   0 < 1 <= 1) /\
  exists rj, LastDescendant Line.nested 1 = Ok rj /\ 1 <= rj <= 1.
Proof.
  split.
  - repeat split; evaluated.
  - apply (LastDescendant_nested Line.nested 0 1 1); evaluated.
Defined.

Lemma LastDescendant_idempotent_witness :
  (len (loops Line.nested) <= GoInt.max_int /\
   LastDescendant Line.nested 0 = Ok 1) /\
  LastDescendant Line.nested 1 = Ok 1.
Proof.
  split.
  - repeat split; evaluated.
  - apply (LastDescendant_idempotent Line.nested 0 1); evaluated.
Defined.

Lemma Parent_characterised_witness :
  (len (loops Line.nested) <= GoInt.max_int /\ 0 <= 1 < NumLoops Line.nested) /\
  exists r ok,
    Parent Line.nested 1 = Ok (r, ok) /\
    -1 <= r < 1 /\
    (ok = false <-> depthAt Line.nested 1 = 0) /\
    (ok = false -> r = -1) /\
    (ok = true ->
     (forall j, r < j < 1 -> depthAt Line.nested j <= depthAt Line.nested 1) /\
     (0 <= r -> depthAt Line.nested 1 < depthAt Line.nested r)).
Proof.
  split.
  - repeat split; evaluated.
  - apply (Parent_characterised Line.nested 1); evaluated.
Defined.

Lemma loop_index_out_of_range_witness :
  (2 < 0 \/ NumLoops Line.nested <= 2) /\
  Loop_ Line.nested 2 = Panic IndexOutOfRange /\
  Parent Line.nested 2 = Panic IndexOutOfRange /\
  loopIsHole Line.nested 2 = Panic IndexOutOfRange /\
  loopSign Line.nested 2 = Panic IndexOutOfRange.
Proof.
  split.
  - right. evaluated.
  - apply (proj1 (loop_index_out_of_range Line.nested 2)). right. evaluated.
Defined.

Lemma loopSign_parity_witness :
  0 <= 0 < NumLoops Line.nested /\
  loopIsHole Line.nested 0 = Ok (Z.odd (depthAt Line.nested 0)) /\
  loopSign Line.nested 0 = Ok (if Z.odd (depthAt Line.nested 0) then -1 else 1) /\
  (forall j, 0 <= j < NumLoops Line.nested ->
             depthAt Line.nested j = depthAt Line.nested 0 + 1 ->
             exists s, loopSign Line.nested 0 = Ok s /\ loopSign Line.nested j = Ok (- s)).
Proof.
  split.
  - evaluated.
  - apply (loopSign_parity Line.nested 0); evaluated.
Defined.

Lemma ChainPosition_past_the_end_witness :
  (loops Line.thirteen = replicate 12 Line.triangle ++ [Line.triangle] /\
   loops Line.thirteen_linear = loops Line.thirteen /\
   edgesCounted true Line.thirteen /\
   edgesCounted false Line.thirteen_linear /\
   len (loops Line.thirteen) <= GoInt.max_int /\
   edgeTotal (loops Line.thirteen) <= GoInt.max_int /\
   NumEdges Line.thirteen <= 50 /\ 50 <= GoInt.max_int) /\
  ChainPosition Line.thirteen_linear 50 = Panic IndexOutOfRange /\
  Edge Line.thirteen_linear 50 = Panic IndexOutOfRange /\
  ChainPosition Line.thirteen 50 =
    Ok (Shape.mkChainPosition (NumLoops Line.thirteen - 1)
                              (50 - edgeTotal (replicate 12 Line.triangle))) /\
  edgeCount Line.triangle <= 50 - edgeTotal (replicate 12 Line.triangle).
Proof.
  split.
  - repeat split; evaluated.
  - apply (ChainPosition_past_the_end Line.thirteen Line.thirteen_linear
             (replicate 12 Line.triangle) Line.triangle 50); evaluated.
Defined.


Lemma initEdges_table_witness :
  (numEdges Line.thirteen_uncounted = 0 /\
   cumulativeEdges Line.thirteen_uncounted = None /\
   edgeTotal (replicate 13 Line.triangle) <= GoInt.max_int /\
   maxLinearSearchLoops < len (replicate 13 Line.triangle)) /\
  exists t,
    cumulativeEdges (initEdges (replicate 13 Line.triangle) Line.thirteen_uncounted)
      = Some t /\
    length t = length (replicate 13 Line.triangle) /\
    (forall (i : nat) a, t !! i = Some a ->
                         a = edgeTotal (take i (replicate 13 Line.triangle))) /\
    (forall (i j : nat) a b, (i <= j)%nat -> t !! i = Some a -> t !! j = Some b ->
       0 <= a <= b /\
       b <= numEdges (initEdges (replicate 13 Line.triangle) Line.thirteen_uncounted)).
Proof.
  split.
  - repeat split; evaluated.
  - apply (proj2 (proj2 (@initEdges_table Line.collaborators
                           (replicate 13 Line.triangle)
                           Line.thirteen_uncounted
                           ltac:(evaluated) ltac:(evaluated) ltac:(evaluated))));
      evaluated.
Defined.

Lemma PolygonFromLoops_outcomes_witness :
  1 < len [Line.triangle; Line.shell] /\
  PolygonFromLoops [Line.triangle; Line.shell] =
  Panic (Explicit "PolygonFromLoops for multiple loops is not yet implemented").
Proof.
  split.
  - evaluated.
  - apply (proj2 (proj2 (@PolygonFromLoops_outcomes Line.collaborators
                           [Line.triangle; Line.shell]))). evaluated.
Defined.

Lemma single_loop_polygon_witness :
  len (vertices Line.triangle) <= GoInt.max_int /\
  exists p,
    PolygonFromLoops [Line.triangle] = Ok p /\
    NumLoops p = 1 /\
    NumEdges p = len (vertices Line.triangle) /\
    numVertices p = NumEdges p /\
    cumulativeEdges p = None /\
    Chain p 0 = Ok (Shape.mkChain 0 (len (vertices Line.triangle))) /\
    (forall e, 0 <= e < NumEdges p ->
               ChainPosition p e = Ok (Shape.mkChainPosition 0 e) /\
               Edge p e = ChainEdge p 0 e) /\
    LastDescendant p 0 = Ok 0 /\
    ContainsOrigin p = Loop_ContainsOrigin Line.triangle /\
    NumChains p = (if Loop_IsFull Line.triangle then 0 else 1).
Proof.
  split.
  - evaluated.
  - apply (@single_loop_polygon Line.collaborators Line.triangle). evaluated.
Defined.

Lemma ContainsOrigin_order_witness :
  Permutation (loops Line.nested) (loops Line.nested_swapped) /\
  ContainsOrigin Line.nested = ContainsOrigin Line.nested_swapped.
Proof.
  assert (H : Permutation (loops Line.nested) (loops Line.nested_swapped))
    by apply perm_swap.
  split; [exact H|].
  apply (proj1 (ContainsOrigin_order Line.nested Line.nested_swapped Line.nested) H).
Defined.

Lemma NumChains_zero_iff_witness :
  IsEmpty (C := Line.collaborators) zeroPolygon = true /\
  NumChains (C := Line.collaborators) zeroPolygon = 0 /\
  IsFull (C := Line.collaborators) zeroPolygon = false.
Proof.
  split; [reflexivity|]. split.
  - apply (proj1 (NumChains_zero_iff zeroPolygon)). left. reflexivity.
  - apply (proj1 (proj2 (NumChains_zero_iff zeroPolygon))). reflexivity.
Defined.

Lemma Encode_appends_witness :
  numVertices (C := Line.collaborators) zeroPolygon = 0 /\
  (Encode (C := Line.collaborators) zeroPolygon [x01]).1 = [x01] /\
  (Encode Line.nested [x01]).2 = None.
Proof.
  split; [reflexivity|]. split.
  - apply (proj2 (proj2 (Encode_appends zeroPolygon [x01]))). reflexivity.
  - apply (proj1 (proj2 (Encode_appends Line.nested [x01]))). evaluated.
Defined.

Lemma Encode_single_loop_witness :
  0 < len (vertices Line.triangle) /\
  exists p,
    PolygonFromLoops [Line.triangle] = Ok p /\
    Encode p [] =
      ([] ++ int8_bytes encodingVersion
          ++ bool_bytes true
          ++ bool_bytes false
          ++ uint32_bytes 1
          ++ Loop_encoding Line.triangle
          ++ Rect_encoding (Loop_RectBound Line.triangle),
       None).
Proof.
  split; [evaluated|].
  destruct (@Encode_single_loop Line.collaborators Line.triangle [])
    as (p & Hp & Hpos & _).
  exists p. split; [exact Hp|]. apply Hpos. evaluated.
Defined.
